(** * Turev: a function and derivative plotter

    A shallow embedding of the numeric core of the plotter (script.js and its
    sibling variants): expression compilation on top of math.js, the
    derivative provider, the coordinate mapper, tick placement, range
    estimation and the canvas renderers.

    JavaScript numbers are modelled twice.  In the main development a
    finite number is a rational and the three IEEE specials +Infinity,
    -Infinity and NaN are kept with their arithmetic; rounding, overflow and
    the sign of zero are outside that model, and decimal literals such as
    0.1 or 1e-12 denote the rationals they spell.  Where rounding,
    absorption or overflow decides a property (the round trip of the
    coordinate mapper, the tick loop), the functions are given again over
    binary64 in [Binary64], on the primitive floats.

    math.js is modelled twice as well: as a function of the code and the
    scope where only the shape of a compiled closure matters, and as an
    object with state of its own in [Instance], where calls made one after
    the other are compared. *)

From Stdlib Require Import QArith Qround Qabs Qminmax Qpower Qfield.
From Stdlib Require Import ZArith NArith List Sorted Bool Lia Lqa.
From Stdlib Require Import String Ascii Floats.
Import ListNotations.

Open Scope Q_scope.

Set Warnings "-inexact-float".

(** ** JavaScript numbers *)

Inductive num : Type :=
  | Fin (q : Q)
  | PInf
  | NInf
  | NaN.

(** Finite results are kept in lowest terms. *)
Definition fin (q : Q) : num := Fin (Qred q).

Definition Qlt_bool (a b : Q) : bool := negb (Qle_bool b a).

(** Value equality of numbers: rationals up to [Qeq], specials by name.
    (This is not JavaScript's [===], for which see [num_eqb].) *)
Definition num_eq (a b : num) : Prop :=
  match a, b with
  | Fin x, Fin y => x == y
  | PInf, PInf => True
  | NInf, NInf => True
  | NaN, NaN => True
  | _, _ => False
  end.

Definition num_opp (a : num) : num :=
  match a with
  | Fin x => fin (- x)
  | PInf => NInf
  | NInf => PInf
  | NaN => NaN
  end.

Definition num_add (a b : num) : num :=
  match a, b with
  | NaN, _ | _, NaN => NaN
  | Fin x, Fin y => fin (x + y)
  | PInf, NInf | NInf, PInf => NaN
  | PInf, _ | _, PInf => PInf
  | NInf, _ | _, NInf => NInf
  end.

Definition num_sub (a b : num) : num :=
  match a, b with
  | NaN, _ | _, NaN => NaN
  | Fin x, Fin y => fin (x - y)
  | PInf, PInf | NInf, NInf => NaN
  | PInf, _ | _, NInf => PInf
  | NInf, _ | _, PInf => NInf
  end.

(** An infinity scaled by a finite factor: the sign of the factor decides,
    and a zero factor gives NaN. *)
Definition inf_scaled (positive : bool) (x : Q) : num :=
  if Qlt_bool 0 x then (if positive then PInf else NInf)
  else if Qlt_bool x 0 then (if positive then NInf else PInf)
  else NaN.

Definition num_mul (a b : num) : num :=
  match a, b with
  | NaN, _ | _, NaN => NaN
  | Fin x, Fin y => fin (x * y)
  | Fin x, PInf | PInf, Fin x => inf_scaled true x
  | Fin x, NInf | NInf, Fin x => inf_scaled false x
  | PInf, PInf | NInf, NInf => PInf
  | PInf, NInf | NInf, PInf => NInf
  end.

Definition num_div (a b : num) : num :=
  match a, b with
  | NaN, _ | _, NaN => NaN
  | Fin x, Fin y =>
      if Qeq_bool y 0 then inf_scaled true x else fin (x / y)
  | Fin _, PInf | Fin _, NInf => Fin 0
  | PInf, Fin y => if Qlt_bool y 0 then NInf else PInf
  | NInf, Fin y => if Qlt_bool y 0 then PInf else NInf
  | _, _ => NaN
  end.

(** Comparisons; any comparison with NaN is false. *)
Definition num_leb (a b : num) : bool :=
  match a, b with
  | NaN, _ | _, NaN => false
  | Fin x, Fin y => Qle_bool x y
  | NInf, _ | _, PInf => true
  | _, _ => false
  end.

Definition num_ltb (a b : num) : bool :=
  match a, b with
  | NaN, _ | _, NaN => false
  | Fin x, Fin y => Qlt_bool x y
  | PInf, _ | _, NInf => false
  | _, _ => true
  end.

Definition num_geb (a b : num) : bool := num_leb b a.
Definition num_gtb (a b : num) : bool := num_ltb b a.

(** [a === b] on numbers. *)
Definition num_eqb (a b : num) : bool :=
  match a, b with
  | Fin x, Fin y => Qeq_bool x y
  | PInf, PInf | NInf, NInf => true
  | _, _ => false
  end.

(** Truthiness of a number: 0 and NaN are falsy. *)
Definition truthy (a : num) : bool :=
  match a with
  | Fin x => negb (Qeq_bool x 0)
  | NaN => false
  | _ => true
  end.

(** [a || b] on numbers. *)
Definition num_or (a b : num) : num := if truthy a then a else b.

Definition isFiniteNum (a : num) : bool :=
  match a with Fin _ => true | _ => false end.

Definition Math_abs (a : num) : num :=
  match a with
  | Fin x => fin (Qabs x)
  | PInf | NInf => PInf
  | NaN => NaN
  end.

Definition Math_max (a b : num) : num :=
  match a, b with
  | NaN, _ | _, NaN => NaN
  | _, _ => if num_leb a b then b else a
  end.

Definition Math_min (a b : num) : num :=
  match a, b with
  | NaN, _ | _, NaN => NaN
  | _, _ => if num_leb a b then a else b
  end.

Definition Math_floor (a : num) : num :=
  match a with Fin x => Fin (inject_Z (Qfloor x)) | _ => a end.

Definition Math_ceil (a : num) : num :=
  match a with Fin x => Fin (inject_Z (Qceiling x)) | _ => a end.

Definition of_Z (z : Z) : num := Fin (inject_Z z).
Definition of_nat (n : nat) : num := of_Z (Z.of_nat n).

Declare Scope num_scope.
Delimit Scope num_scope with num.
Bind Scope num_scope with num.
Infix "+" := num_add : num_scope.
Infix "-" := num_sub : num_scope.
Infix "*" := num_mul : num_scope.
Infix "/" := num_div : num_scope.
Notation "- x" := (num_opp x) : num_scope.
Infix "<=?" := num_leb : num_scope.
Infix "<?" := num_ltb : num_scope.
Infix ">=?" := num_geb (at level 70) : num_scope.
Infix ">?" := num_gtb (at level 70) : num_scope.
Infix "===" := num_eqb (at level 70) : num_scope.
Infix "=n=" := num_eq (at level 70) : num_scope.

Definition pair_eq (p q : num * num) : Prop :=
  (fst p =n= fst q)%num /\ (snd p =n= snd q)%num.

(** ** JavaScript strings

    A string is its sequence of UTF-16 code units. *)

Definition jsstring := list N.

Definition js (s : string) : jsstring :=
  List.map N_of_ascii (list_ascii_of_string s).

Definition isLineTerminator (c : N) : bool :=
  ((c =? 10) || (c =? 13) || (c =? 8232) || (c =? 8233))%N.

Definition isWhiteSpace (c : N) : bool :=
  ((c =? 9) || (c =? 11) || (c =? 12) || (c =? 32) || (c =? 160)
   || (c =? 5760) || ((8192 <=? c) && (c <=? 8202)) || (c =? 8239)
   || (c =? 8287) || (c =? 12288) || (c =? 65279))%N.

(** What [String.prototype.trim] strips: white space and line terminators. *)
Definition trimmable (c : N) : bool := isWhiteSpace c || isLineTerminator c.

Fixpoint trimStart (s : jsstring) : jsstring :=
  match s with
  | [] => []
  | c :: r => if trimmable c then trimStart r else s
  end.

Fixpoint trimEnd (s : jsstring) : jsstring :=
  match s with
  | [] => []
  | c :: r =>
      match trimEnd r with
      | [] => if trimmable c then [] else [c]
      | r' => c :: r'
      end
  end.

Definition trim (s : jsstring) : jsstring := trimEnd (trimStart s).

Definition code_eqb (a b : N) : bool := (a =? b)%N.

Fixpoint startsWith (p s : jsstring) : bool :=
  match p, s with
  | [], _ => true
  | _ :: _, [] => false
  | a :: p', b :: s' => code_eqb a b && startsWith p' s'
  end.

Fixpoint includes (p s : jsstring) : bool :=
  startsWith p s ||
  match s with
  | [] => false
  | _ :: r => includes p r
  end.

Definition bar : N := 124%N.

(** The match of [s] against the anchored pattern bar, any run of
    characters other than line terminators (captured), bar: the captured
    group when [s] has that shape. *)
Definition match_bars (s : jsstring) : option jsstring :=
  match s with
  | c :: r =>
      if code_eqb c bar then
        match rev r with
        | d :: m =>
            if code_eqb d bar && forallb (fun k => negb (isLineTerminator k)) m
            then Some (rev m) else None
        | [] => None
        end
      else None
  | [] => None
  end.

Definition is_empty (s : jsstring) : bool :=
  match s with [] => true | _ => false end.

Definition normalizeExpr (raw : jsstring) : jsstring :=
  if is_empty raw || is_empty (trim raw) then []
  else
    let s := trim raw in
    if includes (js "|") s && negb (includes (js "abs") s) then
      match match_bars s with
      | Some m => js "abs(" ++ m ++ js ")"
      | None => s
      end
    else s.

(** ** The math.js interface

    math.js is an external library; only the way the program calls it is
    modelled.  A value returned by an evaluation is a number, a boolean or
    something else (a string, a complex number, a matrix, ...); an
    evaluation may instead throw.  The scope handed to [evaluate] is the
    object [{ x }]; math.js may write to it (an assignment inside the
    expression), so the scope comes back with the outcome. *)

Inductive jsval : Type :=
  | VNum (n : num)
  | VBool (b : bool)
  | VNull
  | VOther.

Inductive outcome : Type :=
  | Return (v : jsval)
  | Throw.

Definition scope := list (string * jsval).

Definition Number_isFinite (v : jsval) : bool :=
  match v with
  | VNum n => isFiniteNum n
  | _ => false
  end.

(** The number held by a value that passed [Number_isFinite]. *)
Definition as_num (v : jsval) : num :=
  match v with
  | VNum n => n
  | _ => NaN
  end.

(** [Number.isFinite(d) ? d : NaN] on a number. *)
Definition finite_or_NaN (d : num) : num := if isFiniteNum d then d else NaN.

Section MathJs.

(** Compiled expression code. *)
Variable node : Type.
(** [math.parse(src).compile()]; [None] when either call throws. *)
Variable parse : jsstring -> option node.
(** [math.derivative(src, "x").compile()]; [None] when either call throws. *)
Variable derivative : jsstring -> option node.
(** [code.evaluate(scope)]. *)
Variable evaluate : node -> scope -> outcome * scope.

(** One call of the closure [(x) => { try { ... } catch { return NaN } }],
    as a transformer of the store of scope objects allocated so far: the
    call allocates the object [{ x }], evaluates in it and leaves it
    behind. *)
Definition call_compiled (code : node) (x : num) (store : list scope)
  : num * list scope :=
  let (o, sc) := evaluate code [("x"%string, VNum x)] in
  (match o with
   | Return v => if Number_isFinite v then as_num v else NaN
   | Throw => NaN
   end,
   store ++ [sc]).

(** The closure as a function of its argument. *)
Definition compiled (code : node) (x : num) : num :=
  fst (call_compiled code x []).

Definition compileExpression (expr : jsstring) : option (num -> num) :=
  let src := normalizeExpr expr in
  if is_empty src then None
  else
    match parse src with
    | Some code => Some (compiled code)
    | None => None
    end.

(** The numeric fallback of [compileDerivative]. *)
Definition central_difference (f : num -> num) (x : num) : num :=
  let h := (Fin (1 # 100000) * Math_max (Fin 1) (Math_abs x))%num in
  let y1 := f (x + h)%num in
  let y2 := f (x - h)%num in
  let d := ((y1 - y2) / (Fin 2 * h))%num in
  finite_or_NaN d.

Definition compileDerivative (expr : jsstring) : option (num -> num) :=
  let src := normalizeExpr expr in
  if is_empty src then None
  else
    match derivative src with
    | Some dcode => Some (compiled dcode)
    | None =>
        match compileExpression src with
        | None => None
        | Some f => Some (central_difference f)
        end
    end.

End MathJs.

(** ** The math instance as an object with state

    [math = create(all, {})] is one object for the life of the page, and
    an evaluation may read and change what it holds (the generator behind
    [random()], for one).  In this reading of the library an evaluation
    takes the state of the instance and returns the next one; the closure
    built by [compileExpression] holds the compiled code and nothing
    else, and makes a fresh scope [{ x }] at each call. *)

Module Instance.

Section MathJs.

Variables (node state : Type).
(** [math.parse(src).compile()]; [None] when either call throws. *)
Variable parse : jsstring -> option node.
(** [code.evaluate(scope)] in a state of the instance. *)
Variable evaluate : node -> scope -> state -> outcome * scope * state.

(** One call of the closure [(x) => { try { ... } catch { return NaN } }]. *)
Definition call_compiled (code : node) (x : num) (st : state)
  : num * state :=
  let '(o, _, st') := evaluate code [("x"%string, VNum x)] st in
  (match o with
   | Return v => if Number_isFinite v then as_num v else NaN
   | Throw => NaN
   end,
   st').


Definition compileExpression (expr : jsstring)
  : option (num -> state -> num * state) :=
  let src := normalizeExpr expr in
  if is_empty src then None
  else
    match parse src with
    | Some code => Some (call_compiled code)
    | None => None
    end.

End MathJs.

End Instance.

(** ** Utilities *)

Definition clamp (v a b : num) : num := Math_max a (Math_min b v).

(** [n] is the requested length, a non-negative integer. *)
Definition linspace (a b : num) (n : nat) : list num :=
  let step := ((b - a) / Math_max (Fin 1) (of_Z (Z.of_nat n - 1)))%num in
  List.map (fun i => (a + of_nat i * step)%num) (seq 0 n).

(** ** Coordinate mapper *)

Definition worldToScreen (x y W H xMin xMax yMin yMax : num) : num * num :=
  let sx := (((x - xMin) / (xMax - xMin)) * W)%num in
  let sy := (H - ((y - yMin) / (yMax - yMin)) * H)%num in
  (sx, sy).

Definition screenToWorld (sx sy W H xMin xMax yMin yMax : num) : num * num :=
  let x := (xMin + (sx / W) * (xMax - xMin))%num in
  let y := (yMin + ((H - sy) / H) * (yMax - yMin))%num in
  (x, y).

(** ** Tick placement *)

Definition pow10 (k : Z) : Q := Qpower 10 k.

(** Downward search for the largest [k] with [10^k <= q]. *)
Fixpoint scan_log10 (fuel : nat) (k : Z) (q : Q) : Z :=
  match fuel with
  | O => k
  | S f => if Qle_bool (pow10 k) q then k else scan_log10 f (k - 1) q
  end.

(** The integer [k] with [10^k <= q < 10^(k+1)], for [q > 0]: the search
    starts from the binary length of the numerator, above which no power of
    ten fits, and needs to go no lower than the binary length of the
    denominator. *)
Definition floor_log10 (q : Q) : Z :=
  let hi := Z.log2 (Qnum q) in
  let lo := (- (Z.log2 (Zpos (Qden q)) + 1))%Z in
  scan_log10 (Z.to_nat (hi - lo)) hi q.

(** [Math.floor(Math.log10(a))].  The logarithm of a rational is in general
    not a rational, so the two calls are modelled together. *)
Definition Math_floor_log10 (a : num) : num :=
  match a with
  | Fin q =>
      if Qlt_bool 0 q then of_Z (floor_log10 q)
      else if Qeq_bool q 0 then NInf
      else NaN
  | PInf => PInf
  | NInf => NaN
  | NaN => NaN
  end.

(** [Math.pow(10, e)] at an integer-valued exponent, the only use made of
    it. *)
Definition Math_pow10 (e : num) : num :=
  match e with
  | Fin k => fin (pow10 (Qfloor k))
  | PInf => PInf
  | NInf => Fin 0
  | NaN => NaN
  end.

(** [+v.toFixed(12)]: [v] rounded to twelve decimals, halves away from
    zero; from 1e21 on, [toFixed] prints the number itself. *)
Definition toFixed12 (v : num) : num :=
  match v with
  | Fin q =>
      if Qle_bool (pow10 21) (Qabs q) then v
      else
        let n := Qfloor (Qabs q * pow10 12 + (1 # 2)) in
        if Qlt_bool q 0 then fin (- (inject_Z n / pow10 12))
        else fin (inject_Z n / pow10 12)
  | _ => v
  end.

(** [for (let v = start; v <= bound; v += step) ticks.push(+v.toFixed(12))].
    The loop is bounded by fuel; [None] means the fuel ran out before the
    loop condition failed. *)
Fixpoint ticks_loop (fuel : nat) (v step bound : num) : option (list num) :=
  if (v <=? bound)%num then
    match fuel with
    | O => None
    | S f =>
        match ticks_loop f (v + step)%num step bound with
        | Some ticks => Some (toFixed12 v :: ticks)
        | None => None
        end
    end
  else Some [].

(** The snapped step [{1,2,5} * 10^k] of [niceTicks]. *)
Definition niceStep (min max target : num) : num :=
  let span := num_or (max - min)%num (Fin 1) in
  let step0 := (span / target)%num in
  let pow10 := Math_pow10 (Math_floor_log10 step0) in
  let step := (step0 / pow10)%num in
  let step :=
    if (step >=? Fin 5)%num then Fin 5
    else if (step >=? Fin 2)%num then Fin 2
    else Fin 1 in
  (step * pow10)%num.

Definition niceTicks (fuel : nat) (min max target : num) : option (list num) :=
  let step := niceStep min max target in
  let start := (Math_ceil (min / step) * step)%num in
  ticks_loop fuel start step (max + Fin (1 # 1000000000000))%num.

(** The default [target = 8]. *)
Definition default_target : num := Fin 8.

(** ** Range estimation: the body of the yRange effect *)

Definition range_scan (f : num -> num) (xs : list num) (acc : num * num)
  : num * num :=
  fold_left
    (fun (a : num * num) x =>
       let y := f x in
       if negb (isFiniteNum y) then a
       else (Math_min (fst a) y, Math_max (snd a) y))
    xs acc.

(** [ymin] and [ymax] after the scan and the reset made when no sample was
    finite. *)
Definition unpadded_range (f : num -> num) (xMin xMax : num) (samples : nat)
  : num * num :=
  let xs := linspace xMin xMax (Nat.min samples 400) in
  let r := range_scan f xs (PInf, NInf) in
  if negb (isFiniteNum (fst r)) || negb (isFiniteNum (snd r))
  then (Fin (-1), Fin 1) else r.

Definition estimateRange (f : num -> num) (xMin xMax : num) (samples : nat)
  : num * num :=
  let r := unpadded_range f xMin xMax samples in
  let r :=
    if (fst r === snd r)%num then ((fst r - Fin 1)%num, (snd r + Fin 1)%num)
    else r in
  let pad := ((snd r - fst r) * Fin (1 # 10) + Fin (1 # 1000000000))%num in
  ((fst r - pad)%num, (snd r + pad)%num).

(** The effect: nothing is set when the expression did not compile. *)
Definition yRange_effect (f : option (num -> num)) (xMin xMax : num)
    (samples : nat) (yRange : num * num) : num * num :=
  match f with
  | None => yRange
  | Some f => estimateRange f xMin xMax samples
  end.

(** ** The coordinate mapper and tick placement over binary64

    The same functions with a number read as the double it is: every
    operation rounds to nearest, a sum may absorb its smaller term and a
    difference may overflow.  [Math.floor(Math.log10(.))] is the decimal
    exponent of the double, and [Math.pow(10, .)] and the decimal string
    read back by [+v.toFixed(12)] are rounded to nearest. *)

Module Binary64.

Local Open Scope float_scope.

(** The rational a finite double stands for. *)
Definition to_Q (x : float) : Q :=
  match Prim2SF x with
  | S754_finite s m e =>
      let z := if s then Zneg m else Zpos m in
      if (0 <=? e)%Z then inject_Z (z * 2 ^ e)
      else Qmake z (Z.to_pos (2 ^ (- e)))
  | _ => 0%Q
  end.

(** The double nearest to a rational (ties to even): the quotient is taken
    with at least 66 bits and a sticky bit, then rounded once. *)
Definition of_Q (q : Q) : float :=
  let n := Z.abs (Qnum q) in
  let d := Zpos (Qden q) in
  let k := Z.max 0 (66 + Z.log2 d - Z.log2 n) in
  let m := (n * 2 ^ k / d)%Z in
  let sticky := if ((n * 2 ^ k) mod d =? 0)%Z then 0%Z else 1%Z in
  let m' := (2 * m + sticky)%Z in
  SF2Prim (binary_normalize prec emax
             (if (Qnum q <? 0)%Z then (- m')%Z else m') (- k - 1) false).

Definition of_Z (z : Z) : float := of_Q (inject_Z z).

Definition worldToScreen (x y W H xMin xMax yMin yMax : float)
  : float * float :=
  let sx := ((x - xMin) / (xMax - xMin)) * W in
  let sy := H - ((y - yMin) / (yMax - yMin)) * H in
  (sx, sy).

Definition screenToWorld (sx sy W H xMin xMax yMin yMax : float)
  : float * float :=
  let x := xMin + (sx / W) * (xMax - xMin) in
  let y := yMin + ((H - sy) / H) * (yMax - yMin) in
  (x, y).

(** Truthiness of a number: NaN and both zeros are falsy. *)
Definition truthy (a : float) : bool := negb (is_nan a || is_zero a).

(** [a || b] on numbers. *)
Definition num_or (a b : float) : float := if truthy a then a else b.

(** [Math.ceil]; from 2^52 on every double is an integer. *)
Definition Math_ceil (x : float) : float :=
  if is_finite x && negb (is_zero x) && (abs x <? 0x1p52)
  then
    let r := of_Z (Qceiling (to_Q x)) in
    if is_zero r && (x <? 0) then neg_zero else r
  else x.

(** [Math.floor(Math.log10(a))]. *)
Definition Math_floor_log10 (a : float) : float :=
  if is_nan a then nan
  else if is_zero a then neg_infinity
  else if a <? 0 then nan
  else if is_infinity a then infinity
  else of_Z (floor_log10 (to_Q a)).

(** [Math.pow(10, e)] at an integer-valued exponent. *)
Definition Math_pow10 (e : float) : float :=
  if is_nan e then nan
  else if is_infinity e then (if e <? 0 then 0 else infinity)
  else of_Q (pow10 (Qfloor (to_Q e))).

(** [+v.toFixed(12)]: the decimal with twelve places nearest to [v]
    (halves away from zero), read back as a double; from 1e21 on,
    [toFixed] prints the number itself. *)
Definition toFixed12 (v : float) : float :=
  if negb (is_finite v) then v
  else if 1e21 <=? abs v then v
  else
    let n := Qfloor (Qabs (to_Q v) * pow10 12 + (1 # 2)) in
    let r := of_Q (inject_Z n / pow10 12) in
    if v <? 0 then - r else r.

(** [for (let v = start; v <= bound; v += step) ticks.push(+v.toFixed(12))],
    bounded by fuel; [None] means the fuel ran out before the loop
    condition failed. *)
Fixpoint ticks_loop (fuel : nat) (v step bound : float)
  : option (list float) :=
  if v <=? bound then
    match fuel with
    | O => None
    | S f =>
        match ticks_loop f (v + step) step bound with
        | Some ticks => Some (toFixed12 v :: ticks)
        | None => None
        end
    end
  else Some [].

Definition niceStep (min max target : float) : float :=
  let span := num_or (max - min) 1 in
  let step0 := span / target in
  let pow10 := Math_pow10 (Math_floor_log10 step0) in
  let step := step0 / pow10 in
  let step := if 5 <=? step then 5 else if 2 <=? step then 2 else 1 in
  step * pow10.

Definition niceTicks (fuel : nat) (min max target : float)
  : option (list float) :=
  let step := niceStep min max target in
  let start := Math_ceil (min / step) * step in
  ticks_loop fuel start step (max + 1e-12).

End Binary64.

(** ** The canvas

    A renderer is modelled by the sequence of calls it makes on the 2D
    context.  Full circles are the only arcs drawn.  The text of the
    tangent label is kept as the three numbers it prints. *)

Inductive text : Type :=
  | TangentLabel (x y m : num).

Inductive call : Type :=
  | Save
  | Restore
  | Translate (x y : num)
  | LineWidth (w : num)
  | StrokeStyle (c : string)
  | FillStyle (c : string)
  | LineDash (d : list num)
  | Font (f : string)
  | TextAlign (a : string)
  | TextBaseline (b : string)
  | BeginPath
  | MoveTo (x y : num)
  | LineTo (x y : num)
  | Arc (x y r : num)
  | Stroke
  | Fill
  | FillText (t : text) (x y : num).

(** What the calls paint.  The current path is a list of subpaths; [Stroke]
    and [Fill] paint every subpath of the current path and leave the path
    in place, [BeginPath] empties it. *)

Inductive subpath : Type :=
  | Polyline (pts : list (num * num))
  | Circle (x y r : num).

Inductive shape : Type :=
  | Stroked (style : string) (s : subpath)
  | Filled (style : string) (s : subpath).

Record painter : Type := mkPainter {
  path : list subpath;
  strokeStyle : string;
  fillStyle : string;
  painted : list shape
}.

Definition blank : painter := mkPainter [] "#000000" "#000000" [].

(** [lineTo]: extends the last subpath; with no subpath to extend (or after
    an arc) the point starts one. *)
Definition extend (p : list subpath) (pt : num * num) : list subpath :=
  match rev p with
  | Polyline pts :: before => rev before ++ [Polyline (pts ++ [pt])]
  | _ => p ++ [Polyline [pt]]
  end.

Definition paint (c : painter) (k : call) : painter :=
  match k with
  | BeginPath => mkPainter [] (strokeStyle c) (fillStyle c) (painted c)
  | MoveTo x y =>
      mkPainter (path c ++ [Polyline [(x, y)]]) (strokeStyle c) (fillStyle c)
        (painted c)
  | LineTo x y =>
      mkPainter (extend (path c) (x, y)) (strokeStyle c) (fillStyle c)
        (painted c)
  | Arc x y r =>
      mkPainter (path c ++ [Circle x y r]) (strokeStyle c) (fillStyle c)
        (painted c)
  | Stroke =>
      mkPainter (path c) (strokeStyle c) (fillStyle c)
        (painted c ++ List.map (Stroked (strokeStyle c)) (path c))
  | Fill =>
      mkPainter (path c) (strokeStyle c) (fillStyle c)
        (painted c ++ List.map (Filled (fillStyle c)) (path c))
  | StrokeStyle s => mkPainter (path c) s (fillStyle c) (painted c)
  | FillStyle s => mkPainter (path c) (strokeStyle c) s (painted c)
  | _ => c
  end.

Definition render (calls : list call) : list shape :=
  painted (fold_left paint calls blank).

(** The polylines that end up stroked: the curve's segments. *)
Fixpoint segments_of (shapes : list shape) : list (list (num * num)) :=
  match shapes with
  | [] => []
  | Stroked _ (Polyline pts) :: rest => pts :: segments_of rest
  | _ :: rest => segments_of rest
  end.

Definition segments (calls : list call) : list (list (num * num)) :=
  segments_of (render calls).

Definition hole_colour : string := "#ef4444".

(** The circles stroked in the hole colour: the hole markers. *)
Fixpoint holes_of (shapes : list shape) : list (num * num) :=
  match shapes with
  | [] => []
  | Stroked style (Circle x y _) :: rest =>
      if String.eqb style hole_colour then (x, y) :: holes_of rest
      else holes_of rest
  | _ :: rest => holes_of rest
  end.

Definition holes (calls : list call) : list (num * num) :=
  holes_of (render calls).

(** ** Renderers of script.js *)

Module ScriptJs.

Section Panel.

(** Canvas width, panel height and sample count of the drawing effect. *)
Variables (W panelH : num) (samples : nat).

(** The abscissa of sample [i]. *)
Definition sample_x (xMin_ xMax_ : num) (i : nat) : num :=
  (xMin_ + (of_nat i / of_Z (Z.of_nat samples - 1)) * (xMax_ - xMin_))%num.

Fixpoint curve_loop (fn : num -> num) (xMin_ xMax_ yMin_ yMax_ : num)
    (idx : list nat) (started : bool) : list call :=
  match idx with
  | [] => []
  | i :: rest =>
      let x := sample_x xMin_ xMax_ i in
      let y := fn x in
      if negb (isFiniteNum y) then
        curve_loop fn xMin_ xMax_ yMin_ yMax_ rest false
      else
        let (sx, sy) :=
          worldToScreen x y W panelH xMin_ xMax_ yMin_ yMax_ in
        (if negb started then MoveTo sx sy else LineTo sx sy)
        :: curve_loop fn xMin_ xMax_ yMin_ yMax_ rest true
  end.

Definition drawCurve (fn : num -> num) (color : string)
    (xMin_ xMax_ yMin_ yMax_ yOffset : num) : list call :=
  [Save; Translate (Fin 0) yOffset; BeginPath]
  ++ curve_loop fn xMin_ xMax_ yMin_ yMax_ (seq 0 samples) false
  ++ [LineWidth (Fin 2); StrokeStyle color; Stroke; Restore].

End Panel.

End ScriptJs.

(** ** Renderers of the variant with jump and corner detection
    (src/unnamed/part_000, first application) *)

Module Part000.

Definition JUMP_ABS : num := Fin (3 # 4).
Definition JUMP_REL : num := Fin (2 # 5).
Definition CONT_ABS : num := Fin (3 # 5).
Definition CONT_REL : num := Fin (7 # 20).
Definition SLOPE_ABS : num := Fin (3 # 5).
Definition SLOPE_REL : num := Fin (7 # 20).

(** The dual-threshold test between two values: the absolute difference
    against [abs_tol] and the difference relative to the larger magnitude
    against [rel_tol]. *)
Definition exceeds (abs_tol rel_tol : num) (a b : num) : bool :=
  let absJump := Math_abs (a - b)%num in
  let relJump :=
    (absJump / Math_max (Fin (1 # 1000000000))
                 (Math_max (Math_abs a) (Math_abs b)))%num in
  (absJump >? abs_tol)%num && (relJump >? rel_tol)%num.

(** [Number.isFinite(lastY)], where [lastY] is [null] until a sample has
    been drawn. *)
Definition isFinite_last (lastY : option num) : bool :=
  match lastY with
  | Some y => isFiniteNum y
  | None => false
  end.

(** The half-step [h = Math.max(1e-6, 0.5 * H)] of the corner test, [H]
    being the sample spacing. *)
Definition half_step (H : num) : num :=
  Math_max (Fin (1 # 1000000)) (Fin (1 # 2) * H)%num.

Section Panel.

Variables (W panelH : num) (samples : nat).

Fixpoint curve_loop (fn : num -> num) (xMin_ xMax_ yMin_ yMax_ : num)
    (xs : list num) (started : bool) (lastY : option num) : list call :=
  match xs with
  | [] => []
  | x :: rest =>
      let y := fn x in
      if negb (isFiniteNum y) then
        curve_loop fn xMin_ xMax_ yMin_ yMax_ rest false lastY
      else
        let (sx, sy) :=
          worldToScreen x y W panelH xMin_ xMax_ yMin_ yMax_ in
        let cut :=
          started && isFinite_last lastY &&
          match lastY with
          | Some l => exceeds JUMP_ABS JUMP_REL y l
          | None => false
          end in
        let started := if cut then false else started in
        (if cut then [Stroke; BeginPath] else [])
        ++ (if negb started then MoveTo sx sy else LineTo sx sy)
        :: curve_loop fn xMin_ xMax_ yMin_ yMax_ rest true (Some y)
  end.

Definition drawCurve (fn : num -> num) (color : string)
    (xMin_ xMax_ yMin_ yMax_ yOffset : num) : list call :=
  [Save; Translate (Fin 0) yOffset; LineWidth (Fin 2); StrokeStyle color;
   BeginPath]
  ++ curve_loop fn xMin_ xMax_ yMin_ yMax_
       (linspace xMin_ xMax_ samples) false None
  ++ [Stroke; Restore].

(** State of the component read by the two functions below. *)
Variables (f : num -> num) (df : option (num -> num)).
Variables (xMin xMax : num) (yRange dRange : num * num).
Variables (showTangent showDerivative lockTangent : bool).
(** [evalScalar(tangentX)] and [hoverX] ([null] when the pointer is
    away). *)
Variables (tangentX : num) (hoverX : option num).

Definition drawTangentAt : list call :=
  match df with
  | None => []
  | Some df =>
      if negb showTangent then []
      else
        match (if lockTangent then Some tangentX else hoverX) with
        | None => []
        | Some NaN => []
        | Some xCandidate =>
            let x := clamp xCandidate xMin xMax in
            let y := f x in
            let m := df x in
            if negb (isFiniteNum y) || negb (isFiniteNum m) then []
            else
              let xA := xMin in
              let xB := xMax in
              let yA := (m * (xA - x) + y)%num in
              let yB := (m * (xB - x) + y)%num in
              let to_screen px py :=
                worldToScreen px py W panelH xMin xMax
                  (fst yRange) (snd yRange) in
              let sx := fst (to_screen x (Fin 0)) in
              let (sAx, sAy) := to_screen xA yA in
              let (sBx, sBy) := to_screen xB yB in
              let (sx0, sy) := to_screen x y in
              [StrokeStyle "#c7d2fe"; LineWidth (Fin 1);
               LineDash [Fin 4; Fin 4];
               BeginPath; MoveTo sx (Fin 0); LineTo sx panelH; Stroke;
               LineDash [];
               StrokeStyle "#7c3aed"; LineWidth (Fin 2);
               BeginPath; MoveTo sAx sAy; LineTo sBx sBy; Stroke;
               FillStyle "#7c3aed"; BeginPath; Arc sx0 sy (Fin 3); Fill;
               FillStyle "#1f2937"; Font "12px system-ui";
               TextAlign "left"; TextBaseline "bottom";
               FillText (TangentLabel x y m)
                 (Math_min (Math_max (Fin 6) (sx0 + Fin 6)%num)
                    (W - Fin 180)%num)
                 (Math_max (Fin 14) (sy - Fin 6)%num)]
        end
  end.

Definition drawHole (x yy : num) : list call :=
  if negb (isFiniteNum yy) then []
  else
    let (hx, hy) :=
      worldToScreen x yy W panelH xMin xMax (fst dRange) (snd dRange) in
    [FillStyle "#fff"; BeginPath; Arc hx hy (Fin 3); Fill;
     StrokeStyle "#ef4444"; BeginPath; Arc hx hy (Fin 3); Stroke;
     StrokeStyle "#10b981"].

(** One-sided difference quotients of [f] at [x] with half-step [h]. *)
Definition left_quotient (x h : num) : num :=
  ((f x - f (x - h)) / h)%num.
Definition right_quotient (x h : num) : num :=
  ((f (x + h) - f x) / h)%num.

(** One iteration of the loop of [drawDerivativeWithHoles] at the sample
    [x]; [H] is the sample spacing.  Returns the calls made and the new
    value of [started]. *)
Definition holes_step (dfn : num -> num) (H x : num) (started : bool)
  : list call * bool :=
  let h := half_step H in
  let ym := f (x - h)%num in
  let yp := f (x + h)%num in
  let jumpHere :=
    negb (isFiniteNum ym && isFiniteNum yp)
    || exceeds CONT_ABS CONT_REL yp ym in
  let y := dfn x in
  if negb (isFiniteNum y) || jumpHere then ([], false)
  else
    let (sx, sy) :=
      worldToScreen x y W panelH xMin xMax (fst dRange) (snd dRange) in
    let left := left_quotient x h in
    let right := right_quotient x h in
    let cornerHere := exceeds SLOPE_ABS SLOPE_REL left right in
    ((if negb started then MoveTo sx sy else LineTo sx sy)
     :: (if cornerHere
         then drawHole x left ++ drawHole x right ++ [Stroke; BeginPath]
         else []),
     negb cornerHere).

Fixpoint holes_loop (dfn : num -> num) (H : num) (xs : list num)
    (started : bool) : list call :=
  match xs with
  | [] => []
  | x :: rest =>
      let (calls, started') := holes_step dfn H x started in
      calls ++ holes_loop dfn H rest started'
  end.

Definition drawDerivativeWithHoles : list call :=
  match df with
  | None => []
  | Some dfn =>
      if negb showDerivative then []
      else
        let xs := linspace xMin xMax (Nat.min samples 500) in
        let H :=
          ((xMax - xMin) / of_Z (Z.of_nat (List.length xs) - 1))%num in
        [Save; Translate (Fin 0) (panelH + Fin 12)%num; LineWidth (Fin 2);
         StrokeStyle "#10b981"; BeginPath]
        (* the interior samples xs[1] .. xs[length - 2] *)
        ++ holes_loop dfn H (removelast (tl xs)) false
        ++ [Stroke; Restore]
  end.

End Panel.

End Part000.

(** ** Editing helpers of the variant (src/unnamed/part_000) *)

(** A row of the piecewise editor. *)
Record row : Type := mkRow {
  row_cond : jsstring;
  row_expr : jsstring
}.

(** The loop of [buildPiecewise] over the kept rows; a row is the last one
    when no row follows it. *)
Fixpoint piecewise_loop (parts : list row) : jsstring :=
  match parts with
  | [] => []
  | r :: rest =>
      (match rest with
       | _ :: _ =>
           if negb (is_empty (trim (row_cond r)))
           then js "(" ++ row_cond r ++ js ")?(" ++ row_expr r ++ js "):"
           else js "(" ++ row_expr r ++ js ")"
       | [] => js "(" ++ row_expr r ++ js ")"
       end) ++ piecewise_loop rest
  end.

(** [buildPiecewise], as a transformer of the state [expr]. *)
Definition buildPiecewise (rows : list row) (expr : jsstring) : jsstring :=
  let parts :=
    filter (fun r => negb (is_empty (trim (row_expr r)))) rows in
  match parts with
  | [] => expr
  | _ :: _ => piecewise_loop parts
  end.

(** [s.slice(a, b)] and [s.slice(a)] at non-negative integers. *)
Definition slice (s : jsstring) (a b : nat) : jsstring :=
  firstn (b - a) (skipn a s).

Definition slice_from (s : jsstring) (a : nat) : jsstring := skipn a s.

(** [insertSnippet]: the new value of [expr] and the position the cursor is
    set to in the next frame.  [el] is the selection of the input element,
    [None] when the element is absent. *)
Definition insertSnippet (before after : jsstring) (cursorDelta : Z)
    (el : option (nat * nat)) (expr : jsstring) : jsstring * option Z :=
  let start :=
    match el with Some (s, _) => s | None => List.length expr end in
  let end_ :=
    match el with Some (_, e) => e | None => List.length expr end in
  let sel := slice expr start end_ in
  let next := slice expr 0 start ++ before ++ sel ++ after
              ++ slice_from expr end_ in
  let pos :=
    (Z.of_nat start + Z.of_nat (List.length before)
     + (if is_empty sel then 0 else Z.of_nat (List.length sel))
     + cursorDelta)%Z in
  (next, match el with Some _ => Some pos | None => None end).

Definition insertCall (name : jsstring)
  : option (nat * nat) -> jsstring -> jsstring * option Z :=
  insertSnippet (name ++ js "(") (js ")") 0.

(** ** Markers of undefined points (src/unnamed/part_000) *)

Section Markers.

Variables (W panelH : num) (samples : nat) (f : num -> num).
Variables (xMin xMax : num) (dRange : num * num) (showDerivative : bool).

(** One iteration, between the samples [x0] and [x1]. *)
Definition mark_step (x0 x1 : num) : list call :=
  let xm := (Fin (1 # 2) * (x0 + x1))%num in
  let h := (Fin (1 # 2) * (x1 - x0))%num in
  let left := ((f xm - f (xm - h)) / h)%num in
  let right := ((f (xm + h) - f xm) / h)%num in
  if negb (isFiniteNum left) || negb (isFiniteNum right) then []
  else
    let absDiff := Math_abs (left - right)%num in
    let rel :=
      (absDiff / Math_max (Fin (1 # 1000000000))
                   (Math_max (Math_abs left) (Math_abs right)))%num in
    let jump := Math_abs (f (xm + h) - f (xm - h))%num in
    if ((absDiff >? Fin (3 # 10))%num && (rel >? Fin (3 # 10))%num)
       || (jump >? Fin (1 # 20) * (snd dRange - fst dRange))%num
    then
      let yMark := (Fin (1 # 2) * (left + right))%num in
      if isFiniteNum yMark then
        let (sx, sy) :=
          worldToScreen xm yMark W panelH xMin xMax
            (fst dRange) (snd dRange) in
        [FillStyle "red"; BeginPath; Arc sx sy (Fin 3); Fill]
      else []
    else [].

(** The loop over the pairs of neighbouring samples. *)
Fixpoint mark_loop (xs : list num) : list call :=
  match xs with
  | x0 :: ((x1 :: _) as rest) => mark_step x0 x1 ++ mark_loop rest
  | _ => []
  end.

Definition markUndefinedPoints : list call :=
  if showDerivative then
    [Save; Translate (Fin 0) (panelH + Fin 12)%num]
    ++ mark_loop (linspace xMin xMax (Nat.min samples 400))
    ++ [Restore]
  else [].

End Markers.

(** ** The tangent overlay of script.js

    It follows the pointer only; [hoverX] is [None] for [null]. *)

Module ScriptJsTangent.

Section Panel.

Variables (W panelH : num).
Variables (f : num -> num) (df : option (num -> num)).
Variables (xMin xMax : num) (yRange : num * num).
Variables (showTangent : bool) (hoverX : option num).

Definition drawTangentAt : list call :=
  if negb showTangent then []
  else
    match hoverX, df with
    | None, _ => []
    | _, None => []
    | Some hx, Some df =>
        let x := clamp hx xMin xMax in
        let y := f x in
        let m := df x in
        if negb (isFiniteNum y) || negb (isFiniteNum m) then []
        else
          let xA := xMin in
          let xB := xMax in
          let yA := (m * (xA - x) + y)%num in
          let yB := (m * (xB - x) + y)%num in
          let to_screen px py :=
            worldToScreen px py W panelH xMin xMax
              (fst yRange) (snd yRange) in
          let sx := fst (to_screen x (Fin 0)) in
          let (sAx, sAy) := to_screen xA yA in
          let (sBx, sBy) := to_screen xB yB in
          let (sx0, sy0) := to_screen x y in
          [StrokeStyle "#c7d2fe"; LineWidth (Fin 1);
           LineDash [Fin 4; Fin 4];
           BeginPath; MoveTo sx (Fin 0); LineTo sx panelH; Stroke;
           LineDash [];
           StrokeStyle "#7c3aed"; LineWidth (Fin 2);
           BeginPath; MoveTo sAx sAy; LineTo sBx sBy; Stroke;
           FillStyle "#7c3aed"; BeginPath; Arc sx0 sy0 (Fin 3); Fill;
           FillStyle "#1f2937"; Font "12px ui-sans-serif, system-ui";
           TextAlign "left"; TextBaseline "bottom";
           FillText (TangentLabel x y m)
             (Math_min (Math_max (Fin 6) (sx0 + Fin 6)%num)
                (W - Fin 156)%num)
             (Math_max (Fin 14) (sy0 - Fin 6)%num)]
    end.

End Panel.

End ScriptJsTangent.

(** ** A small stand-in for math.js

    Enough of an expression evaluator to run the definitions above on the
    expressions the program ships as presets and tests: constants, the
    variable, arithmetic, [<], the conditional and [abs].  Parsing is a
    table. *)

Module Fixture.

Inductive expr : Type :=
  | Const (q : Q)
  | Sym (name : string)
  | Neg (a : expr)
  | Add (a b : expr)
  | Sub (a b : expr)
  | Mul (a b : expr)
  | Div (a b : expr)
  | Smaller (a b : expr)
  | Cond (c a b : expr)
  | Fn (name : string) (a : expr).

Fixpoint lookup (name : string) (sc : scope) : option jsval :=
  match sc with
  | [] => None
  | (k, v) :: rest => if String.eqb k name then Some v else lookup name rest
  end.

Definition arith (op : num -> num -> num) (a b : outcome) : outcome :=
  match a, b with
  | Return (VNum x), Return (VNum y) => Return (VNum (op x y))
  | _, _ => Throw
  end.

Fixpoint eval (e : expr) (sc : scope) : outcome :=
  match e with
  | Const q => Return (VNum (Fin q))
  | Sym name =>
      match lookup name sc with
      | Some v => Return v
      | None => Throw
      end
  | Neg a =>
      match eval a sc with
      | Return (VNum x) => Return (VNum (- x)%num)
      | _ => Throw
      end
  | Add a b => arith num_add (eval a sc) (eval b sc)
  | Sub a b => arith num_sub (eval a sc) (eval b sc)
  | Mul a b => arith num_mul (eval a sc) (eval b sc)
  | Div a b => arith num_div (eval a sc) (eval b sc)
  | Smaller a b =>
      match eval a sc, eval b sc with
      | Return (VNum x), Return (VNum y) => Return (VBool (x <? y)%num)
      | _, _ => Throw
      end
  | Cond c a b =>
      match eval c sc with
      | Return (VBool true) => eval a sc
      | Return (VBool false) => eval b sc
      | Return (VNum x) => if truthy x then eval a sc else eval b sc
      | _ => Throw
      end
  | Fn name a =>
      if String.eqb name "abs" then
        match eval a sc with
        | Return (VNum x) => Return (VNum (Math_abs x))
        | _ => Throw
        end
      else Throw
  end.

Definition evaluate (e : expr) (sc : scope) : outcome * scope := (eval e sc, sc).

Fixpoint jsstring_eqb (a b : jsstring) : bool :=
  match a, b with
  | [], [] => true
  | x :: a', y :: b' => code_eqb x y && jsstring_eqb a' b'
  | _, _ => false
  end.

Definition x : expr := Sym "x".

Definition parse (src : jsstring) : option expr :=
  if jsstring_eqb src (js "abs(x)") then Some (Fn "abs" x)
  else if jsstring_eqb src (js "x<0?-1:1") then
    Some (Cond (Smaller x (Const 0)) (Neg (Const 1)) (Const 1))
  else if jsstring_eqb src (js "x<0?-x:x*x") then
    Some (Cond (Smaller x (Const 0)) (Neg x) (Mul x x))
  else if jsstring_eqb src (js "1/x") then Some (Div (Const 1) x)
  else if jsstring_eqb src (js "5") then Some (Const 5)
  else None.

(** Symbolic derivatives: of [abs(x)] it is [abs(x) / x]; conditionals
    have none. *)
Definition derivative (src : jsstring) : option expr :=
  if jsstring_eqb src (js "abs(x)") then Some (Div (Fn "abs" x) x)
  else if jsstring_eqb src (js "5") then Some (Const 0)
  else None.

Definition compileExpression := compileExpression expr parse evaluate.
Definition compileDerivative :=
  compileDerivative expr parse derivative evaluate.

Definition f_abs : num -> num := compiled expr evaluate (Fn "abs" x).
Definition df_abs : num -> num :=
  compiled expr evaluate (Div (Fn "abs" x) x).
Definition f_five : num -> num := compiled expr evaluate (Const 5).

End Fixture.

(** ** The stand-in with [random()]

    The expressions of [Fixture], which leave the instance alone, and the
    call [random()], which draws the next number of a linear congruential
    generator held by the instance. *)

Module RandomFixture.

Inductive expr : Type :=
  | Pure (e : Fixture.expr)
  | Random.

Definition next (seed : Z) : Z := ((1103515245 * seed + 12345) mod 2147483648)%Z.

Definition evaluate (e : expr) (sc : scope) (seed : Z)
  : outcome * scope * Z :=
  match e with
  | Pure e => (Fixture.eval e sc, sc, seed)
  | Random => (Return (VNum (fin (next seed # 2147483648))), sc, next seed)
  end.

Definition parse (src : jsstring) : option expr :=
  if Fixture.jsstring_eqb src (js "random()") then Some Random
  else option_map Pure (Fixture.parse src).

Definition compileExpression :=
  Instance.compileExpression expr Z parse evaluate.

End RandomFixture.

(** ** Descriptions used in the statements *)


(** Running bounds of the range scan: untouched, or a finite pair in
    order; and the values a finite pair encloses. *)
Definition range_state (acc : num * num) : Prop :=
  acc = (PInf, NInf) \/
  exists lo hi, acc = (Fin lo, Fin hi) /\ lo <= hi.

Definition encloses (acc : num * num) (y : Q) : Prop :=
  exists lo hi, acc = (Fin lo, Fin hi) /\ lo <= y <= hi.

(** The points of a path's polylines, in order; and the points a painter
    holds, stroked already or still in its path. *)
Definition points_of (p : list subpath) : list (num * num) :=
  flat_map (fun s => match s with Polyline pts => pts | Circle _ _ _ => [] end)
           p.

Definition ink (c : painter) : list (num * num) :=
  List.concat (segments_of (painted c)) ++ points_of (path c).




(** * Properties *)

(** ** Numbers *)

Lemma Qlt_bool_iff (a b : Q) : Qlt_bool a b = true <-> a < b.
Proof.
  unfold Qlt_bool. rewrite negb_true_iff.
  split; intro H.
  - apply Qnot_le_lt. intro L. apply Qle_bool_iff in L. congruence.
  - destruct (Qle_bool b a) eqn:E; [|reflexivity].
    apply Qle_bool_iff in E. exfalso. apply (Qlt_not_le _ _ H E).
Qed.

Lemma Qlt_bool_false (a b : Q) : Qlt_bool a b = false <-> b <= a.
Proof.
  unfold Qlt_bool. rewrite negb_false_iff. apply Qle_bool_iff.
Qed.

Lemma Qle_bool_false (a b : Q) : Qle_bool a b = false <-> b < a.
Proof.
  split; intro H.
  - apply Qnot_le_lt. intro L. apply Qle_bool_iff in L. congruence.
  - destruct (Qle_bool a b) eqn:E; [|reflexivity].
    apply Qle_bool_iff in E. exfalso. apply (Qlt_not_le _ _ H E).
Qed.

Lemma Qeq_bool_false (a b : Q) : Qeq_bool a b = false <-> ~ a == b.
Proof.
  split; intro H.
  - intro E. apply Qeq_bool_iff in E. congruence.
  - destruct (Qeq_bool a b) eqn:E; [|reflexivity].
    apply Qeq_bool_iff in E. contradiction.
Qed.

Lemma Qabs_cases (t : Q) :
  (0 <= t /\ Qabs t == t) \/ (t <= 0 /\ Qabs t == - t).
Proof.
  destruct (Qlt_le_dec t 0) as [L|L].
  - right. split; [lra|]. apply Qabs_neg. lra.
  - left. split; [exact L|]. apply Qabs_pos. exact L.
Qed.

Lemma num_eq_refl (a : num) : (a =n= a)%num.
Proof. destruct a; simpl; auto. reflexivity. Qed.

Lemma num_eq_sym (a b : num) : (a =n= b)%num -> (b =n= a)%num.
Proof. destruct a, b; simpl; auto. intro H. symmetry. exact H. Qed.

Lemma num_eq_trans (a b c : num) :
  (a =n= b)%num -> (b =n= c)%num -> (a =n= c)%num.
Proof.
  destruct a, b, c; simpl; auto; try contradiction.
  intros H1 H2. rewrite H1. exact H2.
Qed.

Lemma fin_eq (q : Q) : (fin q =n= Fin q)%num.
Proof. simpl. apply Qred_correct. Qed.

Lemma finite_or_NaN_cases (d : num) :
  isFiniteNum (finite_or_NaN d) = true \/ finite_or_NaN d = NaN.
Proof. destruct d; simpl; auto. Qed.

(** ** Strings: normalisation is idempotent *)

Lemma trimStart_idem (s : jsstring) : trimStart (trimStart s) = trimStart s.
Proof.
  induction s as [|c r IH]; simpl; [reflexivity|].
  destruct (trimmable c) eqn:E; [exact IH|].
  simpl. rewrite E. reflexivity.
Qed.

Lemma trimEnd_idem (s : jsstring) : trimEnd (trimEnd s) = trimEnd s.
Proof.
  induction s as [|c r IH]; simpl; [reflexivity|].
  destruct (trimEnd r) as [|d r'] eqn:E.
  - destruct (trimmable c) eqn:T; simpl; [reflexivity|].
    rewrite T. reflexivity.
  - simpl in IH. simpl.
    destruct (trimEnd r') as [|e r''] eqn:E'.
    + destruct (trimmable d) eqn:T; [discriminate|].
      injection IH as <-. reflexivity.
    + rewrite IH. reflexivity.
Qed.

Lemma trimStart_trimEnd (s : jsstring) :
  trimStart (trimEnd s) = trimEnd (trimStart s).
Proof.
  induction s as [|c r IH]; simpl; [reflexivity|].
  destruct (trimmable c) eqn:T.
  - rewrite <- IH.
    destruct (trimEnd r) as [|d r'] eqn:E; simpl; [reflexivity|].
    rewrite T. reflexivity.
  - simpl. destruct (trimEnd r) as [|d r'] eqn:E; simpl; rewrite T;
      reflexivity.
Qed.

Lemma trim_idem (s : jsstring) : trim (trim s) = trim s.
Proof.
  unfold trim.
  rewrite trimStart_trimEnd, trimStart_idem, trimEnd_idem.
  reflexivity.
Qed.

Lemma trimEnd_snoc_keep (s : jsstring) (c : N) :
  trimmable c = false -> trimEnd (s ++ [c]) = s ++ [c].
Proof.
  intro T. induction s as [|d r IH]; simpl.
  - rewrite T. reflexivity.
  - rewrite IH. destruct r; reflexivity.
Qed.

(** A rewritten expression [abs(...)] is left alone by a second pass. *)
Lemma normalizeExpr_abs (m : jsstring) :
  normalizeExpr (js "abs(" ++ m ++ js ")") = js "abs(" ++ m ++ js ")".
Proof.
  assert (Ht : trim (js "abs(" ++ m ++ js ")") = js "abs(" ++ m ++ js ")").
  { unfold trim. change (js "abs(" ++ m ++ js ")")
      with (97%N :: ([98; 115; 40]%N ++ m ++ [41%N])).
    cbn [trimStart]. change (trimmable 97) with false. cbv iota.
    change (97%N :: ([98; 115; 40]%N ++ m ++ [41%N]))
      with ((97%N :: [98; 115; 40]%N ++ m) ++ [41%N]) at 1.
    rewrite app_comm_cons, app_assoc.
    rewrite trimEnd_snoc_keep by reflexivity.
    rewrite <- app_assoc. reflexivity. }
  unfold normalizeExpr. rewrite Ht.
  change (is_empty (js "abs(" ++ m ++ js ")")) with false.
  cbn [orb].
  assert (Hi : includes (js "abs") (js "abs(" ++ m ++ js ")") = true).
  { reflexivity. }
  rewrite Hi. rewrite andb_false_r. reflexivity.
Qed.

Theorem normalizeExpr_idempotent (raw : jsstring) :
  normalizeExpr (normalizeExpr raw) = normalizeExpr raw.
Proof.
  unfold normalizeExpr at 2 3.
  destruct (is_empty raw || is_empty (trim raw)) eqn:E; [reflexivity|].
  apply orb_false_iff in E as [_ E].
  assert (Hs : normalizeExpr (trim raw) = 
               if includes (js "|") (trim raw)
                  && negb (includes (js "abs") (trim raw))
               then match match_bars (trim raw) with
                    | Some m => js "abs(" ++ m ++ js ")"
                    | None => trim raw
                    end
               else trim raw).
  { unfold normalizeExpr. rewrite trim_idem, E.
    destruct (trim raw); [discriminate|]. reflexivity. }
  cbv zeta.
  destruct (includes (js "|") (trim raw)
            && negb (includes (js "abs") (trim raw))) eqn:C.
  - destruct (match_bars (trim raw)) as [m|] eqn:M.
    + apply normalizeExpr_abs.
    + rewrite Hs. reflexivity.
  - rewrite Hs. reflexivity.
Qed.

(** ** Expression compiler and derivative provider *)

Section MathJsProperties.

Variable node : Type.
Variables parse derivative : jsstring -> option node.
Variable evaluate : node -> scope -> outcome * scope.

(** The spec's names for the two entry points. *)
Let compile := compileExpression node parse evaluate.
Let differentiate := compileDerivative node parse derivative evaluate.
Let closure := compiled node evaluate.

Lemma compileExpression_inv (expr : jsstring) (f : num -> num) :
  compile expr = Some f ->
  exists code,
    parse (normalizeExpr expr) = Some code /\ f = closure code.
Proof.
  unfold compile, compileExpression.
  destruct (is_empty (normalizeExpr expr)); [discriminate|].
  destruct (parse (normalizeExpr expr)) as [code|]; [|discriminate].
  intro H. injection H as <-. exists code. split; reflexivity.
Qed.

Lemma compiled_outcome (code : node) (x : num) :
  closure code x =
  match fst (evaluate code [("x"%string, VNum x)]) with
  | Return v => if Number_isFinite v then as_num v else NaN
  | Throw => NaN
  end.
Proof.
  unfold closure, compiled, call_compiled.
  destruct (evaluate code [("x"%string, VNum x)]) as [o sc].
  reflexivity.
Qed.

(** C1.  Whenever [compile] accepts an expression, the closure
    it returns is total and yields a finite number or NaN at every
    argument: a throwing evaluation gives NaN, a returned value that is
    not a finite number gives NaN, and a finite number is passed on. *)
Theorem compileExpression_finite_or_NaN
    (expr : jsstring) (f : num -> num) :
  compile expr = Some f ->
  exists code,
    parse (normalizeExpr expr) = Some code /\
    forall x : num,
      let result := fst (evaluate code [("x"%string, VNum x)]) in
      (isFiniteNum (f x) = true \/ f x = NaN) /\
      (result = Throw -> f x = NaN) /\
      (forall v, result = Return v -> Number_isFinite v = false ->
                 f x = NaN) /\
      (forall v, result = Return v -> Number_isFinite v = true ->
                 VNum (f x) = v).
Proof.
  intro H. destruct (compileExpression_inv _ _ H) as (code & Hp & ->).
  exists code. split; [exact Hp|].
  intro x. cbv zeta. rewrite compiled_outcome.
  destruct (fst (evaluate code [("x"%string, VNum x)])) as [v|].
  - destruct v as [n| | |]; simpl.
    + destruct n; simpl; repeat split; auto; try discriminate;
        intros v Hv; injection Hv as <-; simpl; congruence.
    + repeat split; auto; try discriminate.
      intros v Hv; injection Hv as <-; simpl; congruence.
    + repeat split; auto; try discriminate.
      intros v Hv; injection Hv as <-; simpl; congruence.
    + repeat split; auto; try discriminate.
      intros v Hv; injection Hv as <-; simpl; congruence.
  - repeat split; auto; discriminate.
Qed.

Lemma compileExpression_normalized (expr : jsstring) :
  compile (normalizeExpr expr) = compile expr.
Proof.
  unfold compile, compileExpression.
  rewrite normalizeExpr_idempotent. reflexivity.
Qed.

(** C4.  When the symbolic derivative is not available, [differentiate]
    answers with the central difference of the closure expression, with
    step [1e-5 * max(1, |x|)] and non-finite quotients turned into NaN;
    and with [null] when the expression itself does not compile. *)
Theorem compileDerivative_numeric_fallback (expr : jsstring) :
  derivative (normalizeExpr expr) = None ->
  match compile expr with
  | Some f =>
      exists d,
        differentiate expr = Some d /\
        forall x : num,
          let h := (Fin (1 # 100000) * Math_max (Fin 1) (Math_abs x))%num in
          let q := ((f (x + h) - f (x - h)) / (Fin 2 * h))%num in
          d x = (if isFiniteNum q then q else NaN)
  | None => differentiate expr = None
  end.
Proof.
  intro Hd.
  unfold differentiate, compileDerivative.
  rewrite Hd.
  fold compile. rewrite compileExpression_normalized.
  destruct (compile expr) as [f|] eqn:Hf.
  - destruct (is_empty (normalizeExpr expr)) eqn:He.
    + unfold compile, compileExpression in Hf.
      rewrite He in Hf. discriminate.
    + exists (central_difference f). split; [reflexivity|].
      intro x. reflexivity.
  - destruct (is_empty (normalizeExpr expr)); reflexivity.
Qed.

End MathJsProperties.

(** ** Calls of a compiled expression, one after the other *)




Lemma compileExpression_finite_or_NaN_witness :
  exists code,
    Fixture.parse (normalizeExpr (js " |x| ")) = Some code /\
    forall x : num,
      let result := fst (Fixture.evaluate code [("x"%string, VNum x)]) in
      (isFiniteNum (Fixture.f_abs x) = true \/ Fixture.f_abs x = NaN) /\
      (result = Throw -> Fixture.f_abs x = NaN) /\
      (forall v, result = Return v -> Number_isFinite v = false ->
                 Fixture.f_abs x = NaN) /\
      (forall v, result = Return v -> Number_isFinite v = true ->
                 VNum (Fixture.f_abs x) = v).
Proof.
  apply (compileExpression_finite_or_NaN
           Fixture.expr Fixture.parse Fixture.evaluate (js " |x| ")).
  reflexivity.
Defined.

Lemma compileDerivative_numeric_fallback_witness :
  match Fixture.compileExpression (js "x<0?-x:x*x") with
  | Some f =>
      exists d,
        Fixture.compileDerivative (js "x<0?-x:x*x") = Some d /\
        forall x : num,
          let h := (Fin (1 # 100000) * Math_max (Fin 1) (Math_abs x))%num in
          let q := ((f (x + h) - f (x - h)) / (Fin 2 * h))%num in
          d x = (if isFiniteNum q then q else NaN)
  | None => Fixture.compileDerivative (js "x<0?-x:x*x") = None
  end.
Proof.
  apply (compileDerivative_numeric_fallback
           Fixture.expr Fixture.parse Fixture.derivative Fixture.evaluate
           (js "x<0?-x:x*x")).
  reflexivity.
Defined.

(** ** Coordinate mapper *)

(** Division of finite numbers by a finite non-zero number. *)
Lemma num_div_fin (a b : Q) :
  ~ b == 0 -> (Fin a / Fin b)%num = fin (a / b).
Proof.
  intro Hb. simpl. apply Qeq_bool_false in Hb. rewrite Hb. reflexivity.
Qed.





(** ** Range estimation *)

Lemma range_scan_no_finite (f : num -> num) (xs : list num) (acc : num * num) :
  (forall x, In x xs -> isFiniteNum (f x) = false) ->
  range_scan f xs acc = acc.
Proof.
  unfold range_scan. revert acc.
  induction xs as [|x rest IH]; intros acc Hf; [reflexivity|].
  simpl. rewrite (Hf x (or_introl eq_refl)). simpl.
  apply IH. intros y Hy. apply Hf. right. exact Hy.
Qed.

(** C6, as the code has it.  With no finite sample the running bounds are
    reset to -1 and 1, and the range returned is that interval with the
    padding 0.1 * 2 + 1e-9 on both sides. *)
Theorem estimateRange_no_finite_sample
    (f : num -> num) (xMin xMax : num) (samples : nat) :
  (forall x, In x (linspace xMin xMax (Nat.min samples 400)) ->
             isFiniteNum (f x) = false) ->
  unpadded_range f xMin xMax samples = (Fin (-1), Fin 1) /\
  estimateRange f xMin xMax samples
  = (Fin (-1200000001 # 1000000000), Fin (1200000001 # 1000000000)).
Proof.
  intro Hf.
  assert (Hu : unpadded_range f xMin xMax samples = (Fin (-1), Fin 1)).
  { unfold unpadded_range. cbv zeta.
    rewrite (range_scan_no_finite _ _ _ Hf). reflexivity. }
  split; [exact Hu|].
  unfold estimateRange. rewrite Hu. reflexivity.
Qed.

Lemma estimateRange_no_finite_sample_witness :
  unpadded_range (fun _ => NaN) (Fin (-10)) (Fin 10) 800
  = (Fin (-1), Fin 1) /\
  estimateRange (fun _ => NaN) (Fin (-10)) (Fin 10) 800
  = (Fin (-1200000001 # 1000000000), Fin (1200000001 # 1000000000)).
Proof.
  apply (estimateRange_no_finite_sample (fun _ => NaN)).
  intros x _. reflexivity.
Defined.

(** C6, the wording "exactly [-1, 1]" against the code: the range
    returned for a function with no finite sample is not [-1, 1]. *)
Lemma estimateRange_no_finite_sample_padded :
  (forall x, In x (linspace (Fin (-10)) (Fin 10) (Nat.min 800 400)) ->
             isFiniteNum ((fun _ : num => NaN) x) = false) /\
  ~ pair_eq (estimateRange (fun _ => NaN) (Fin (-10)) (Fin 10) 800)
      (Fin (-1), Fin 1).
Proof.
  split.
  - intros x _. reflexivity.
  - intros [H _]. vm_compute in H. discriminate.
Qed.

Lemma range_scan_constant (f : num -> num) (c : Q) (xs : list num) :
  (forall x, f x = Fin c) ->
  range_scan f xs (Fin c, Fin c) = (Fin c, Fin c).
Proof.
  intro Hf. unfold range_scan.
  induction xs as [|x rest IH]; [reflexivity|].
  simpl. rewrite Hf. simpl.
  assert (L : Qle_bool c c = true) by (apply Qle_bool_iff; apply Qle_refl).
  rewrite L. exact IH.
Qed.

Lemma linspace_length (a b : num) (n : nat) : List.length (linspace a b n) = n.
Proof. unfold linspace. rewrite length_map, length_seq. reflexivity. Qed.

(** C7.  For the constant function 5, over any domain and with at least
    one sample, the equal bounds 5 and 5 are widened to 4 and 6 and then
    padded by 0.1 * 2 + 1e-9, so the range returned contains [4, 6]. *)
Theorem estimateRange_constant_five
    (f : num -> num) (xMin xMax : num) (samples : nat) :
  (forall x, f x = Fin 5) ->
  (1 <= samples)%nat ->
  let r := estimateRange f xMin xMax samples in
  unpadded_range f xMin xMax samples = (Fin 5, Fin 5) /\
  r = (Fin (3799999999 # 1000000000), Fin (6200000001 # 1000000000)) /\
  (fst r <=? Fin 4)%num = true /\ (Fin 6 <=? snd r)%num = true.
Proof.
  intros Hf Hn.
  assert (Hs : range_scan f (linspace xMin xMax (Nat.min samples 400))
                 (PInf, NInf) = (Fin 5, Fin 5)).
  { pose proof (linspace_length xMin xMax (Nat.min samples 400)) as Hl.
    destruct (linspace xMin xMax (Nat.min samples 400)) as [|x rest].
    - simpl in Hl. lia.
    - unfold range_scan. simpl. rewrite Hf. simpl.
      apply range_scan_constant. exact Hf. }
  assert (Hu : unpadded_range f xMin xMax samples = (Fin 5, Fin 5)).
  { unfold unpadded_range. cbv zeta. rewrite Hs. reflexivity. }
  cbv zeta. unfold estimateRange. rewrite Hu.
  repeat split; reflexivity.
Qed.

Lemma estimateRange_constant_five_witness :
  let r := estimateRange Fixture.f_five (Fin (-10)) (Fin 10) 800 in
  unpadded_range Fixture.f_five (Fin (-10)) (Fin 10) 800 = (Fin 5, Fin 5) /\
  r = (Fin (3799999999 # 1000000000), Fin (6200000001 # 1000000000)) /\
  (fst r <=? Fin 4)%num = true /\ (Fin 6 <=? snd r)%num = true.
Proof.
  apply (estimateRange_constant_five Fixture.f_five).
  - intro x. reflexivity.
  - lia.
Defined.

(** ** Tick placement *)

Lemma pow10_pos (k : Z) : 0 < pow10 k.
Proof. unfold pow10. apply Qpower_0_lt. reflexivity. Qed.

Lemma pow10_succ (k : Z) : pow10 (k + 1) == 10 * pow10 k.
Proof.
  unfold pow10. rewrite Qpower_plus by discriminate.
  rewrite Qmult_comm. reflexivity.
Qed.

Lemma pow10_le (j k : Z) : (j <= k)%Z -> pow10 j <= pow10 k.
Proof.
  intro H. unfold pow10. apply Qpower_le_compat_l; [exact H|].
  discriminate.
Qed.

Lemma pow10_of_nonneg (k : Z) : (0 <= k)%Z -> pow10 k == inject_Z (10 ^ k).
Proof. intro H. unfold pow10. rewrite Zpower_Qpower by exact H. reflexivity. Qed.

(** No positive integer reaches ten to the power of its binary length. *)
Lemma below_pow10_log2 (n : Z) :
  (0 < n)%Z -> inject_Z n < pow10 (Z.log2 n + 1).
Proof.
  intro Hn.
  pose proof (Z.log2_nonneg n) as Hl.
  rewrite pow10_of_nonneg by lia.
  rewrite <- Zlt_Qlt.
  destruct (Z.log2_spec n Hn) as [_ Hu].
  replace (Z.succ (Z.log2 n)) with (Z.log2 n + 1)%Z in Hu by lia.
  apply Z.lt_le_trans with (1 := Hu).
  apply Z.pow_le_mono_l. lia.
Qed.

Lemma scan_log10_spec (fuel : nat) (k : Z) (q : Q) :
  q < pow10 (k + 1) ->
  pow10 (k - Z.of_nat fuel) <= q ->
  pow10 (scan_log10 fuel k q) <= q < pow10 (scan_log10 fuel k q + 1).
Proof.
  revert k. induction fuel as [|fuel IH]; intros k Hu Hl.
  - simpl. replace (k - Z.of_nat 0)%Z with k in Hl by lia. split; assumption.
  - simpl scan_log10.
    destruct (Qle_bool (pow10 k) q) eqn:E.
    + apply Qle_bool_iff in E. split; assumption.
    + apply Qle_bool_false in E. apply IH.
      * replace (k - 1 + 1)%Z with k by lia. exact E.
      * replace (k - 1 - Z.of_nat fuel)%Z with (k - Z.of_nat (S fuel))%Z
          by lia.
        exact Hl.
Qed.

(** [floor_log10 q] is the decimal exponent of [q]. *)
Lemma floor_log10_spec (q : Q) :
  0 < q -> pow10 (floor_log10 q) <= q < pow10 (floor_log10 q + 1).
Proof.
  intro Hq. unfold floor_log10.
  destruct q as [n d].
  assert (Hn : (0 < n)%Z).
  { unfold Qlt in Hq. simpl in Hq. lia. }
  cbn [Qnum Qden].
  pose proof (Z.log2_nonneg n) as Hln.
  pose proof (Z.log2_nonneg (Z.pos d)) as Hld.
  apply scan_log10_spec.
  - apply Qle_lt_trans with (inject_Z n).
    + unfold Qle, inject_Z. simpl. nia.
    + apply below_pow10_log2. exact Hn.
  - rewrite Z2Nat.id by lia.
    replace (Z.log2 n - (Z.log2 n - - (Z.log2 (Z.pos d) + 1)))%Z
      with (- (Z.log2 (Z.pos d) + 1))%Z by lia.
    unfold pow10. rewrite Qpower_opp. fold (pow10 (Z.log2 (Z.pos d) + 1)).
    pose proof (below_pow10_log2 (Z.pos d) (Pos2Z.is_pos d)) as Hd.
    pose proof (pow10_pos (Z.log2 (Z.pos d) + 1)) as Hp.
    apply Qle_trans with (1 # d).
    + apply Qle_shift_inv_r; [exact Hp|].
      assert (E : (1 # d) * inject_Z (Z.pos d) == 1).
      { unfold Qeq, Qmult, inject_Z. simpl. lia. }
      assert (P : 0 < (1 # d)) by reflexivity.
      setoid_replace 1 with ((1 # d) * inject_Z (Z.pos d)) by (symmetry; exact E).
      apply Qmult_le_l; [exact P|]. apply Qlt_le_weak. exact Hd.
    + unfold Qle. simpl. nia.
Qed.

#[local] Arguments Qred : simpl never.
#[local] Arguments Qplus : simpl never.
#[local] Arguments Qminus : simpl never.
#[local] Arguments Qmult : simpl never.
#[local] Arguments Qdiv : simpl never.
#[local] Arguments Qopp : simpl never.
#[local] Arguments Qabs : simpl never.
#[local] Arguments Qle_bool : simpl never.
#[local] Arguments Qeq_bool : simpl never.
#[local] Arguments Qlt_bool : simpl never.
#[local] Arguments Qfloor : simpl never.
#[local] Arguments Qceiling : simpl never.
#[local] Arguments pow10 : simpl never.

(** C10.  With [min > max] the span is negative, its logarithm is NaN, so
    the step is NaN, the loop condition fails at once and the tick list is
    empty, whatever the fuel. *)
Theorem niceTicks_reversed_bounds (min max : num) :
  (min >? max)%num = true ->
  niceStep min max default_target = NaN /\
  forall fuel, niceTicks fuel min max default_target = Some [].
Proof.
  intro H.
  assert (Hs : niceStep min max default_target = NaN).
  { unfold niceStep, default_target.
    destruct min as [a| | |], max as [b| | |]; try discriminate H;
      try reflexivity.
    simpl in H. apply Qlt_bool_iff in H.
    assert (Hneg : Qred (Qred (b - a) / 8) < 0).
    { rewrite !Qred_correct. apply Qlt_shift_div_r; [reflexivity|lra]. }
    assert (Hnz : Qeq_bool (Qred (b - a)) 0 = false).
    { apply Qeq_bool_false. rewrite Qred_correct. lra. }
    unfold num_or. simpl. unfold fin. rewrite Hnz. simpl.
    assert (T1 : Qlt_bool 0 (Qred (Qred (b - a) / 8)) = false).
    { apply Qlt_bool_false. lra. }
    assert (T2 : Qeq_bool (Qred (Qred (b - a) / 8)) 0 = false).
    { apply Qeq_bool_false. lra. }
    rewrite T1, T2. reflexivity. }
  split; [exact Hs|].
  intro fuel. unfold niceTicks. rewrite Hs.
  destruct min, max, fuel; reflexivity.
Qed.

Lemma niceTicks_reversed_bounds_witness :
  niceStep (Fin 3) (Fin 1) default_target = NaN /\
  forall fuel, niceTicks fuel (Fin 3) (Fin 1) default_target = Some [].
Proof.
  apply (niceTicks_reversed_bounds (Fin 3) (Fin 1)). reflexivity.
Defined.

(** ** Tick placement over binary64 *)

Section TickLoop.

Local Open Scope float_scope.

Variables (step bound : float).





(** A step absorbed by the running value keeps the loop from ending. *)
Lemma ticks_loop_absorbed (v : float) :
  (v <=? bound) = true -> v + step = v ->
  forall fuel, Binary64.ticks_loop fuel v step bound = None.
Proof.
  intros Hv Habs fuel. induction fuel as [|fuel IH]; simpl; rewrite Hv.
  - reflexivity.
  - rewrite Habs, IH. reflexivity.
Qed.

End TickLoop.







(** X28.  niceTicks need not return.  When the first value passes the
    loop test and adding the step leaves it unchanged (the step is below
    half the spacing of the doubles around it), the loop condition never
    fails: no amount of fuel gives a result.  This is the case for
    niceTicks(1e16, 1e16), whose step is 0.1. *)
Theorem niceTicks_absorbed_step (min max target : float) :
  let step := Binary64.niceStep min max target in
  let start := (Binary64.Math_ceil (min / step) * step)%float in
  (start <=? max + 1e-12)%float = true ->
  (start + step)%float = start ->
  forall fuel, Binary64.niceTicks fuel min max target = None.
Proof.
  intros step start Hle Habs fuel. unfold Binary64.niceTicks. cbv zeta.
  fold step. fold start. apply ticks_loop_absorbed; assumption.
Qed.

Lemma niceTicks_absorbed_step_witness :
  Binary64.niceStep 1e16 1e16 8 = 0.1%float /\
  (forall fuel, Binary64.niceTicks fuel 1e16 1e16 8 = None) /\
  (forall fuel, Binary64.niceTicks fuel 1e16 10000000000000002 8 = None).
Proof.
  split; [vm_compute; reflexivity|]. split.
  - apply (niceTicks_absorbed_step 1e16 1e16 8); vm_compute; reflexivity.
  - apply (niceTicks_absorbed_step 1e16 10000000000000002 8);
      vm_compute; reflexivity.
Defined.

(** ** The canvas painter *)




(** ** The curve renderers *)

Section CurveFacts.

Variables (W panelH yMin yMax xMin xMax : num) (f : num -> num).

Let pt (x : num) : num * num :=
  worldToScreen x (f x) W panelH xMin xMax yMin yMax.





End CurveFacts.




Section StepFunction.

Variables (W panelH xMin xMax yMin yMax yOffset : num) (color : string).
Variable f : num -> num.
Hypothesis f_step :
  forall q, f (Fin q) = if Qlt_bool q 0 then Fin (-1) else Fin 1.







End StepFunction.

Section PlainCurve.

Variables (W panelH yMin yMax xMin xMax : num) (samples : nat).
Variable f : num -> num.

Let pt (i : nat) : num * num :=
  let x := ScriptJs.sample_x samples xMin xMax i in
  worldToScreen x (f x) W panelH xMin xMax yMin yMax.



End PlainCurve.



(** ** Corner detection *)

Lemma Math_max_fin (u v : Q) :
  Math_max (Fin u) (Fin v) = Fin (if Qle_bool u v then v else u).
Proof. unfold Math_max, num_leb. destruct (Qle_bool u v); reflexivity. Qed.

Lemma Math_min_fin (u v : Q) :
  Math_min (Fin u) (Fin v) = Fin (if Qle_bool u v then u else v).
Proof. unfold Math_min, num_leb. destruct (Qle_bool u v); reflexivity. Qed.

Lemma if_le_max (u v : Q) : (if Qle_bool u v then v else u) == Qmax u v.
Proof.
  destruct (Qle_bool u v) eqn:E.
  - apply Qle_bool_iff in E. symmetry. apply Q.max_r. exact E.
  - apply Qle_bool_false in E. symmetry. apply Q.max_l.
    apply Qlt_le_weak. exact E.
Qed.

(** The dual-threshold test on finite values, in rationals. *)
Lemma exceeds_spec (ta tr a b : Q) :
  Part000.exceeds (Fin ta) (Fin tr) (Fin a) (Fin b) = true <->
  ta < Qabs (a - b) /\
  tr * Qmax (1 # 1000000000) (Qmax (Qabs a) (Qabs b)) < Qabs (a - b).
Proof.
  unfold Part000.exceeds. cbv zeta.
  change (Math_abs (Fin a - Fin b)%num)
    with (Fin (Qred (Qabs (Qred (a - b))))).
  change (Math_abs (Fin a)) with (Fin (Qred (Qabs a))).
  change (Math_abs (Fin b)) with (Fin (Qred (Qabs b))).
  rewrite !Math_max_fin.
  set (J := Qred (Qabs (Qred (a - b)))).
  set (M := if Qle_bool (Qred (Qabs a)) (Qred (Qabs b))
            then Qred (Qabs b) else Qred (Qabs a)).
  set (D := if Qle_bool (1 # 1000000000) M then M else 1 # 1000000000).
  assert (EJ : J == Qabs (a - b)).
  { unfold J. rewrite !Qred_correct. reflexivity. }
  assert (EM : M == Qmax (Qabs a) (Qabs b)).
  { unfold M. rewrite if_le_max, !Qred_correct. reflexivity. }
  assert (ED : D == Qmax (1 # 1000000000) (Qmax (Qabs a) (Qabs b))).
  { unfold D. rewrite if_le_max, EM. reflexivity. }
  assert (PD : 0 < D).
  { rewrite ED. apply Qlt_le_trans with (1 # 1000000000); [reflexivity|].
    apply Q.le_max_l. }
  rewrite num_div_fin by lra.
  unfold num_gtb, fin. cbn [num_ltb].
  rewrite andb_true_iff, !Qlt_bool_iff, Qred_correct, <- EJ, <- ED.
  split; intros [H1 H2]; (split; [exact H1|]).
  - assert (E : J / D * D == J) by (field; lra).
    apply (Qmult_lt_compat_r _ _ D PD) in H2. rewrite E in H2. exact H2.
  - apply Qlt_shift_div_l; [exact PD|exact H2].
Qed.


Lemma half_step_pos (H : num) (hq : Q) :
  Part000.half_step H = Fin hq -> (1 # 1000000) <= hq.
Proof.
  unfold Part000.half_step. destruct H as [t| | |].
  - cbn [num_mul]. unfold fin. rewrite Math_max_fin.
    intro E. injection E as <-.
    destruct (Qle_bool (1 # 1000000) (Qred ((1 # 2) * t))) eqn:L.
    + apply Qle_bool_iff. exact L.
    + apply Qle_refl.
  - intro E. vm_compute in E. discriminate.
  - intro E. vm_compute in E. injection E as <-. apply Qle_refl.
  - intro E. vm_compute in E. discriminate.
Qed.

Section AbsCorner.

Variables (W panelH xMin xMax : num) (dRange : num * num).
Variables (f df : num -> num).
Hypothesis f_abs : forall q, f (Fin q) = Math_abs (Fin q).

Let first_call (q : Q) (started : bool) : call :=
  let p := worldToScreen (Fin q) (df (Fin q)) W panelH xMin xMax
             (fst dRange) (snd dRange) in
  if negb started then MoveTo (fst p) (snd p) else LineTo (fst p) (snd p).

(** One iteration at a finite sample, with the values of [abs] it reads
    named. *)
Lemma holes_step_fin (H : num) (hq q : Q) (started : bool) :
  Part000.half_step H = Fin hq ->
  exists YM YP L R : Q,
    YM == Qabs (q - hq) /\ YP == Qabs (q + hq) /\
    L == (Qabs q - YM) / hq /\ R == (YP - Qabs q) / hq /\
    Part000.left_quotient f (Fin q) (Fin hq) = Fin L /\
    Part000.right_quotient f (Fin q) (Fin hq) = Fin R /\
    Part000.holes_step W panelH f xMin xMax dRange df H (Fin q) started
    = if negb (isFiniteNum (df (Fin q)))
         || Part000.exceeds Part000.CONT_ABS Part000.CONT_REL
              (Fin YP) (Fin YM)
      then ([], false)
      else
        (first_call q started
         :: (if Part000.exceeds Part000.SLOPE_ABS Part000.SLOPE_REL
                  (Fin L) (Fin R)
             then Part000.drawHole W panelH xMin xMax dRange (Fin q) (Fin L)
                  ++ Part000.drawHole W panelH xMin xMax dRange
                       (Fin q) (Fin R)
                  ++ [Stroke; BeginPath]
             else []),
         negb (Part000.exceeds Part000.SLOPE_ABS Part000.SLOPE_REL
                 (Fin L) (Fin R))).
Proof.
  intro Hh. pose proof (half_step_pos H hq Hh) as Hpos.
  assert (Hnz : ~ hq == 0) by lra.
  exists (Qred (Qabs (Qred (q - hq)))), (Qred (Qabs (Qred (q + hq)))).
  exists (Qred (Qred (Qred (Qabs q) - Qred (Qabs (Qred (q - hq)))) / hq)).
  exists (Qred (Qred (Qred (Qabs (Qred (q + hq))) - Qred (Qabs q)) / hq)).
  assert (EL : Part000.left_quotient f (Fin q) (Fin hq)
               = Fin (Qred (Qred (Qred (Qabs q)
                                  - Qred (Qabs (Qred (q - hq)))) / hq))).
  { unfold Part000.left_quotient. cbn [num_sub]. unfold fin.
    rewrite !f_abs.
    repeat (progress (unfold fin; cbn [Math_abs num_sub])).
    rewrite num_div_fin by exact Hnz. reflexivity. }
  assert (ER : Part000.right_quotient f (Fin q) (Fin hq)
               = Fin (Qred (Qred (Qred (Qabs (Qred (q + hq)))
                                  - Qred (Qabs q)) / hq))).
  { unfold Part000.right_quotient. cbn [num_add]. unfold fin.
    rewrite !f_abs.
    repeat (progress (unfold fin; cbn [Math_abs num_sub])).
    rewrite num_div_fin by exact Hnz. reflexivity. }
  repeat split.
  - rewrite !Qred_correct. reflexivity.
  - rewrite !Qred_correct. reflexivity.
  - rewrite !Qred_correct. reflexivity.
  - rewrite !Qred_correct. reflexivity.
  - exact EL.
  - exact ER.
  - unfold Part000.holes_step. rewrite Hh. cbv zeta.
    rewrite EL, ER.
    cbn [num_sub num_add]. unfold fin. rewrite !f_abs.
    repeat (progress (unfold fin;
                      cbn [Math_abs isFiniteNum andb negb orb])).
    unfold first_call.
    destruct (negb (isFiniteNum (df (Fin q)))) ; [reflexivity|].
    cbn [orb].
    destruct (Part000.exceeds Part000.CONT_ABS Part000.CONT_REL
                (Fin (Qred (Qabs (Qred (q + hq)))))
                (Fin (Qred (Qabs (Qred (q - hq)))))); reflexivity.
Qed.

End AbsCorner.

Section AbsCornerCases.

Variables (W panelH xMin xMax : num) (dRange : num * num).
Variables (f df : num -> num) (H : num) (hq : Q).
Hypothesis f_abs : forall q, f (Fin q) = Math_abs (Fin q).
Hypothesis df_nonzero :
  forall q, ~ q == 0 -> isFiniteNum (df (Fin q)) = true.
Hypothesis half : Part000.half_step H = Fin hq.

Let to_screen (x y : num) : num * num :=
  worldToScreen x y W panelH xMin xMax (fst dRange) (snd dRange).

(** Close to the kink the corner test fires and the two hole markers
    are drawn at the one-sided quotients. *)
Lemma holes_step_corner (q : Q) (started : bool) :
  ~ q == 0 -> Qabs q < (7 # 10) * hq -> Qabs q <= 3 # 10 ->
  exists l r : Q,
    Part000.left_quotient f (Fin q) (Fin hq) = Fin l /\
    Part000.right_quotient f (Fin q) (Fin hq) = Fin r /\
    l == (Qabs q + q) / hq - 1 /\
    r == 1 - (Qabs q - q) / hq /\
    holes (fst (Part000.holes_step W panelH f xMin xMax dRange df H
                  (Fin q) started))
    = [to_screen (Fin q) (Fin l); to_screen (Fin q) (Fin r)] /\
    snd (Part000.holes_step W panelH f xMin xMax dRange df H
           (Fin q) started) = false.
Proof.
  intros Hq Hnear Hsmall.
  pose proof (half_step_pos H hq half) as Hpos.
  destruct (holes_step_fin W panelH xMin xMax dRange f df f_abs
              H hq q started half)
    as (YM & YP & L & R & EYM & EYP & EL & ER & HL & HR & Hstep).
  set (A := Qabs q) in *.
  assert (HA : 0 <= A /\ - A <= q /\ q <= A).
  { unfold A. destruct (Qabs_cases q) as [[? E]|[? E]]; rewrite E;
      repeat split; lra. }
  destruct HA as (A0 & A1 & A2).
  assert (EYM' : YM == hq - q).
  { rewrite EYM. destruct (Qabs_cases (q - hq)) as [[? E]|[? E]];
      rewrite E; lra. }
  assert (EYP' : YP == q + hq).
  { rewrite EYP. destruct (Qabs_cases (q + hq)) as [[? E]|[? E]];
      rewrite E; lra. }
  assert (Hcont : Part000.exceeds Part000.CONT_ABS Part000.CONT_REL
                    (Fin YP) (Fin YM) = false).
  { destruct (Part000.exceeds Part000.CONT_ABS Part000.CONT_REL
                (Fin YP) (Fin YM)) eqn:E; [|reflexivity].
    apply exceeds_spec in E. destruct E as [E _]. exfalso.
    destruct (Qabs_cases (YP - YM)) as [[? E']|[? E']];
      rewrite E' in E; lra. }
  assert (EL' : L * hq == A - hq + q).
  { rewrite EL, EYM'. field. lra. }
  assert (ER' : R * hq == q + hq - A).
  { rewrite ER, EYP'. field. lra. }
  assert (BL : -1 <= L <= 1) by (split; nra).
  assert (BR : -1 <= R <= 1) by (split; nra).
  assert (D : (3 # 5) < R - L) by nra.
  assert (Hcorner : Part000.exceeds Part000.SLOPE_ABS Part000.SLOPE_REL
                      (Fin L) (Fin R) = true).
  { apply exceeds_spec.
    assert (J : R - L <= Qabs (L - R)).
    { destruct (Qabs_cases (L - R)) as [[? E]|[? E]]; rewrite E; lra. }
    split; [lra|].
    assert (M : Qmax (1 # 1000000000) (Qmax (Qabs L) (Qabs R)) <= 1).
    { apply Q.max_lub; [discriminate|].
      apply Q.max_lub; apply Qabs_Qle_condition; lra. }
    lra. }
  exists L, R.
  split; [exact HL|]. split; [exact HR|].
  split; [rewrite EL, EYM'; fold A; field; lra|].
  split; [rewrite ER, EYP'; fold A; field; lra|].
  rewrite Hstep, (df_nonzero q Hq), Hcont, Hcorner.
  split; [|reflexivity].
  destruct started; reflexivity.
Qed.

(** Further from the kink no corner is flagged and the curve goes on. *)
Lemma holes_step_smooth (q : Q) (started : bool) :
  (7 # 10) * hq <= Qabs q -> Qabs q <= 3 # 10 ->
  holes (fst (Part000.holes_step W panelH f xMin xMax dRange df H
                (Fin q) started)) = [] /\
  snd (Part000.holes_step W panelH f xMin xMax dRange df H
         (Fin q) started) = true.
Proof.
  intros Hfar Hsmall.
  pose proof (half_step_pos H hq half) as Hpos.
  destruct (holes_step_fin W panelH xMin xMax dRange f df f_abs
              H hq q started half)
    as (YM & YP & L & R & EYM & EYP & EL & ER & HL & HR & Hstep).
  assert (Hq : ~ q == 0).
  { intro E. rewrite E in Hfar. change (Qabs 0) with 0 in Hfar. lra. }
  assert (Hcont : Part000.exceeds Part000.CONT_ABS Part000.CONT_REL
                    (Fin YP) (Fin YM) = false).
  { destruct (Part000.exceeds Part000.CONT_ABS Part000.CONT_REL
                (Fin YP) (Fin YM)) eqn:E; [|reflexivity].
    apply exceeds_spec in E. destruct E as [E _]. exfalso.
    rewrite EYM, EYP in E.
    destruct (Qabs_cases q) as [[? E0]|[? E0]]; rewrite E0 in *;
    destruct (Qabs_cases (q - hq)) as [[? E1]|[? E1]]; rewrite E1 in *;
    destruct (Qabs_cases (q + hq)) as [[? E2]|[? E2]]; rewrite E2 in *;
    match type of E with
    | _ < Qabs ?t =>
        destruct (Qabs_cases t) as [[? E3]|[? E3]]; rewrite E3 in E
    end; lra. }
  assert (Hcorner : Part000.exceeds Part000.SLOPE_ABS Part000.SLOPE_REL
                      (Fin L) (Fin R) = false).
  { destruct (Part000.exceeds Part000.SLOPE_ABS Part000.SLOPE_REL
                (Fin L) (Fin R)) eqn:E; [|reflexivity].
    apply exceeds_spec in E. destruct E as [E _]. exfalso.
    assert (ELR : (L - R) * hq == 2 * Qabs q - YM - YP).
    { rewrite EL, ER. field. lra. }
    assert (B : - (3 # 5) * hq <= (L - R) * hq <= (3 # 5) * hq).
    { rewrite ELR, EYM, EYP.
      destruct (Qabs_cases q) as [[? E0]|[? E0]]; rewrite E0 in *;
      destruct (Qabs_cases (q - hq)) as [[? E1]|[? E1]]; rewrite E1;
      destruct (Qabs_cases (q + hq)) as [[? E2]|[? E2]]; rewrite E2;
      split; lra. }
    destruct (Qabs_cases (L - R)) as [[? E3]|[? E3]]; rewrite E3 in E;
      nra. }
  rewrite Hstep, (df_nonzero q Hq), Hcont, Hcorner.
  split; [|reflexivity].
  destruct started; reflexivity.
Qed.

End AbsCornerCases.

Lemma clamp_zero (q0 a b : Q) :
  q0 == 0 -> a <= 0 -> 0 <= b ->
  exists c, clamp (Fin q0) (Fin a) (Fin b) = Fin c /\ c == 0.
Proof.
  intros H0 Ha Hb. unfold clamp. rewrite Math_min_fin, Math_max_fin.
  eexists. split; [reflexivity|].
  destruct (Qle_bool b q0) eqn:E1.
  - apply Qle_bool_iff in E1.
    destruct (Qle_bool a b) eqn:E2.
    + lra.
    + apply Qle_bool_false in E2. lra.
  - destruct (Qle_bool a q0) eqn:E2.
    + exact H0.
    + apply Qle_bool_false in E2. lra.
Qed.

(** C3, as the code has it.  For [abs] and a derivative that is undefined
    at 0 and finite elsewhere, with [h] the half-step of the loop:
    - at a sample equal to 0 the loop draws nothing, so no marker;
    - at a sample [x] with [0 < |x| < 0.7 h] (and [|x| <= 0.3], where the
      continuity test passes) the corner is flagged and two hole markers
      are drawn at the one-sided quotients, [(|x| + x) / h - 1] and
      [1 - (|x| - x) / h]: one of them is -1 or 1, the other tends to the
      opposite value as [x / h] tends to 0;
    - at a sample with [0.7 h <= |x| <= 0.3] no marker is drawn;
    - no tangent is drawn when the anchor is 0 inside the domain. *)
Theorem abs_corner_holes_and_tangent
    (W panelH xMin xMax : num) (yRange dRange : num * num)
    (f df : num -> num) (H : num) (hq : Q) :
  (forall q, f (Fin q) = Math_abs (Fin q)) ->
  (forall q, q == 0 -> df (Fin q) = NaN) ->
  (forall q, ~ q == 0 -> isFiniteNum (df (Fin q)) = true) ->
  Part000.half_step H = Fin hq ->
  let step := Part000.holes_step W panelH f xMin xMax dRange df H in
  let to_screen (x y : num) :=
    worldToScreen x y W panelH xMin xMax (fst dRange) (snd dRange) in
  (forall (q : Q) (started : bool),
      q == 0 -> step (Fin q) started = ([], false))
  /\
  (forall (q : Q) (started : bool),
      ~ q == 0 -> Qabs q < (7 # 10) * hq -> Qabs q <= 3 # 10 ->
      exists l r : Q,
        Part000.left_quotient f (Fin q) (Fin hq) = Fin l /\
        Part000.right_quotient f (Fin q) (Fin hq) = Fin r /\
        l == (Qabs q + q) / hq - 1 /\
        r == 1 - (Qabs q - q) / hq /\
        holes (fst (step (Fin q) started))
        = [to_screen (Fin q) (Fin l); to_screen (Fin q) (Fin r)] /\
        snd (step (Fin q) started) = false)
  /\
  (forall (q : Q) (started : bool),
      (7 # 10) * hq <= Qabs q -> Qabs q <= 3 # 10 ->
      holes (fst (step (Fin q) started)) = [] /\
      snd (step (Fin q) started) = true)
  /\
  (forall (a b q0 : Q) (showTangent lockTangent : bool) (tangentX : num)
          (hoverX : option num),
      a <= 0 -> 0 <= b -> q0 == 0 ->
      (if lockTangent then Some tangentX else hoverX) = Some (Fin q0) ->
      Part000.drawTangentAt W panelH f (Some df) (Fin a) (Fin b) yRange
        showTangent lockTangent tangentX hoverX = []).
Proof.
  intros Hf Hdf0 Hdf Hh step to_screen.
  split; [|split; [|split]].
  - intros q started Hq. unfold step, Part000.holes_step.
    rewrite (Hdf0 q Hq). reflexivity.
  - intros q started. apply holes_step_corner; assumption.
  - intros q started. apply holes_step_smooth; assumption.
  - intros a b q0 showTangent lockTangent tangentX hoverX Ha Hb H0 Hc.
    unfold Part000.drawTangentAt. rewrite Hc.
    destruct showTangent; [|reflexivity]. cbn [negb].
    destruct (clamp_zero q0 a b H0 Ha Hb) as (c & -> & Ec).
    rewrite (Hdf0 c Ec). cbn [isFiniteNum negb]. rewrite orb_true_r.
    reflexivity.
Qed.

Lemma f_abs_values (q : Q) : Fixture.f_abs (Fin q) = Math_abs (Fin q).
Proof. reflexivity. Qed.

Lemma df_abs_values (q : Q) :
  Fixture.df_abs (Fin q)
  = if Qeq_bool q 0 then NaN else Fin (Qred (Qred (Qabs q) / q)).
Proof.
  unfold Fixture.df_abs, compiled, call_compiled, Fixture.evaluate.
  cbn [Fixture.eval Fixture.x Fixture.lookup String.eqb Ascii.eqb
       Bool.eqb fst Fixture.arith Math_abs].
  unfold fin. cbn [num_div].
  destruct (Qeq_bool q 0) eqn:E; [|reflexivity].
  apply Qeq_bool_iff in E.
  assert (Z : Qred (Qabs q) == 0).
  { rewrite Qred_correct, E. reflexivity. }
  unfold inf_scaled.
  assert (T1 : Qlt_bool 0 (Qred (Qabs q)) = false)
    by (apply Qlt_bool_false; lra).
  assert (T2 : Qlt_bool (Qred (Qabs q)) 0 = false)
    by (apply Qlt_bool_false; lra).
  rewrite T1, T2. reflexivity.
Qed.

Lemma abs_corner_holes_and_tangent_witness :
  Part000.holes_step (Fin 1000) (Fin 254) Fixture.f_abs (Fin (-10)) (Fin 10)
    (Fin (-12 # 10), Fin (12 # 10)) Fixture.df_abs (Fin 1) (Fin 0) false
  = ([], false)
  /\
  (exists l r : Q,
      l == - (3 # 5) /\ r == 1 /\
      holes (fst (Part000.holes_step (Fin 1000) (Fin 254) Fixture.f_abs
                    (Fin (-10)) (Fin 10) (Fin (-12 # 10), Fin (12 # 10))
                    Fixture.df_abs (Fin 1) (Fin (1 # 10)) true))
      = [worldToScreen (Fin (1 # 10)) (Fin l) (Fin 1000) (Fin 254)
           (Fin (-10)) (Fin 10) (Fin (-12 # 10)) (Fin (12 # 10));
         worldToScreen (Fin (1 # 10)) (Fin r) (Fin 1000) (Fin 254)
           (Fin (-10)) (Fin 10) (Fin (-12 # 10)) (Fin (12 # 10))])
  /\
  Part000.drawTangentAt (Fin 1000) (Fin 254) Fixture.f_abs
    (Some Fixture.df_abs) (Fin (-10)) (Fin 10)
    (Fin (-12 # 10), Fin (12 # 10)) true true (Fin 0) None = [].
Proof.
  destruct (abs_corner_holes_and_tangent
              (Fin 1000) (Fin 254) (Fin (-10)) (Fin 10)
              (Fin (-12 # 10), Fin (12 # 10))
              (Fin (-12 # 10), Fin (12 # 10))
              Fixture.f_abs Fixture.df_abs (Fin 1) (1 # 2))
    as (Hzero & Hcorner & _ & Htan).
  - exact f_abs_values.
  - intros q Hq. rewrite df_abs_values.
    apply Qeq_bool_iff in Hq. rewrite Hq. reflexivity.
  - intros q Hq. rewrite df_abs_values.
    apply Qeq_bool_false in Hq. rewrite Hq. reflexivity.
  - reflexivity.
  - split; [|split].
    + apply (Hzero 0 false). reflexivity.
    + destruct (Hcorner (1 # 10) true)
        as (l & r & _ & _ & El & Er & Eh & _).
      * discriminate.
      * reflexivity.
      * discriminate.
      * exists l, r. split; [|split].
        -- rewrite El. vm_compute. reflexivity.
        -- rewrite Er. vm_compute. reflexivity.
        -- exact Eh.
    + apply (Htan (-10) 10 0 true true (Fin 0) None);
        first [reflexivity | discriminate].
Defined.

(** C3, the wording "two hole markers at x = 0" against the code: on the
    default view (domain [-10, 10], 800 samples requested, so 500 used)
    no sample falls within 0.7 h of the kink, and with 101 samples one
    falls on it; either way no hole marker is drawn for [abs]. *)
Lemma drawDerivativeWithHoles_abs_no_marker :
  holes (Part000.drawDerivativeWithHoles (Fin 1000) (Fin 254) 800
           Fixture.f_abs (Some Fixture.df_abs) (Fin (-10)) (Fin 10)
           (estimateRange Fixture.df_abs (Fin (-10)) (Fin 10) 800) true)
  = []
  /\
  holes (Part000.drawDerivativeWithHoles (Fin 1000) (Fin 254) 101
           Fixture.f_abs (Some Fixture.df_abs) (Fin (-10)) (Fin 10)
           (estimateRange Fixture.df_abs (Fin (-10)) (Fin 10) 101) true)
  = [].
Proof.
  split; vm_compute; reflexivity.
Qed.




(** The whole renderer on a view where a sample falls near the kink
    (domain [-1, 1.3], 100 samples, so x = -1/990 with h = 23/1980): one
    pair of markers, at the quotients -1 and 2 x / h + 1 = 19/23. *)
Example drawDerivativeWithHoles_abs_marker_pair :
  holes (Part000.drawDerivativeWithHoles (Fin 1000) (Fin 254) 100
           Fixture.f_abs (Some Fixture.df_abs) (Fin (-1)) (Fin (13 # 10))
           (estimateRange Fixture.df_abs (Fin (-1)) (Fin (13 # 10)) 100)
           true)
  = [worldToScreen (Fin (-1 # 990)) (Fin (-1)) (Fin 1000) (Fin 254)
       (Fin (-1)) (Fin (13 # 10))
       (Fin (-1200000001 # 1000000000)) (Fin (1200000001 # 1000000000));
     worldToScreen (Fin (-1 # 990)) (Fin (19 # 23)) (Fin 1000) (Fin 254)
       (Fin (-1)) (Fin (13 # 10))
       (Fin (-1200000001 # 1000000000)) (Fin (1200000001 # 1000000000))].
Proof.
  vm_compute. reflexivity.
Qed.

(** * Further properties *)

(** ** Utilities *)

(** X1.  [clamp] between ordered finite bounds: every number other than
    NaN lands within the bounds, a number already within them keeps its
    value, the infinities go to the nearer bound, and NaN stays NaN. *)
Theorem clamp_within_bounds (a b : Q) :
  a <= b ->
  (forall v : num, v <> NaN ->
     exists c, clamp v (Fin a) (Fin b) = Fin c /\ a <= c <= b) /\
  (forall q : Q, a <= q <= b ->
     (clamp (Fin q) (Fin a) (Fin b) =n= Fin q)%num) /\
  clamp PInf (Fin a) (Fin b) = Fin b /\
  clamp NInf (Fin a) (Fin b) = Fin a /\
  clamp NaN (Fin a) (Fin b) = NaN.
Proof.
  intro Hab.
  assert (Lab : Qle_bool a b = true) by (apply Qle_bool_iff; exact Hab).
  assert (Hfin : forall q, exists c,
             clamp (Fin q) (Fin a) (Fin b) = Fin c /\ a <= c <= b /\
             (a <= q <= b -> c == q)).
  { intro q. unfold clamp. rewrite Math_min_fin, Math_max_fin.
    eexists. split; [reflexivity|].
    destruct (Qle_bool b q) eqn:E1.
    - apply Qle_bool_iff in E1. rewrite Lab.
      split; [lra|]. intros [_ Hq]. lra.
    - apply Qle_bool_false in E1.
      destruct (Qle_bool a q) eqn:E2.
      + apply Qle_bool_iff in E2. split; [lra|]. reflexivity.
      + apply Qle_bool_false in E2. split; [lra|]. intros [Hq _]. lra. }
  assert (Hp : clamp PInf (Fin a) (Fin b) = Fin b).
  { unfold clamp, Math_min, Math_max, num_leb. rewrite Lab. reflexivity. }
  assert (Hn : clamp NInf (Fin a) (Fin b) = Fin a) by reflexivity.
  repeat split; auto.
  - intros v Hv. destruct v as [q| | |].
    + destruct (Hfin q) as (c & Hc & Hin & _). exists c. auto.
    + exists b. split; [exact Hp|lra].
    + exists a. split; [exact Hn|lra].
    + contradiction.
  - intros q Hq. destruct (Hfin q) as (c & Hc & _ & Hid).
    rewrite Hc. simpl. auto.
Qed.

Lemma clamp_within_bounds_witness :
  exists c, clamp (Fin 5000) (Fin 100) (Fin 4000) = Fin c /\ 100 <= c <= 4000.
Proof.
  destruct (clamp_within_bounds 100 4000) as (H & _).
  - discriminate.
  - apply (H (Fin 5000)). discriminate.
Defined.

(** ** Coordinate mapper *)

(** X4.  A viewport of no width ([xMin] and [xMax] of one value) has no
    finite abscissa on screen: the division by zero gives an infinity or
    NaN whatever the point and the panel width. *)
Theorem worldToScreen_degenerate (x y W H yMin yMax : num) (xMin xMax : Q) :
  xMin == xMax ->
  isFiniteNum
    (fst (worldToScreen x y W H (Fin xMin) (Fin xMax) yMin yMax)) = false.
Proof.
  intro He. unfold worldToScreen. cbn [fst].
  assert (Hz : Qeq_bool (Qred (xMax - xMin)) 0 = true).
  { apply Qeq_bool_iff. rewrite Qred_correct. lra. }
  assert (Hdiv : forall n : num,
            isFiniteNum (n / Fin (Qred (xMax - xMin)))%num = false).
  { intro n. destruct n as [q| | |]; cbn [num_div]; rewrite ?Hz.
    - unfold inf_scaled.
      destruct (Qlt_bool 0 q); [reflexivity|].
      destruct (Qlt_bool q 0); reflexivity.
    - destruct (Qlt_bool _ 0); reflexivity.
    - destruct (Qlt_bool _ 0); reflexivity.
    - reflexivity. }
  assert (Hmul : forall n w : num,
            isFiniteNum n = false -> isFiniteNum (n * w)%num = false).
  { intros n w Hn. destruct n as [q| | |]; [discriminate| | |reflexivity].
    all: destruct w as [p| | |]; cbn [num_mul]; try reflexivity.
    all: unfold inf_scaled.
    all: destruct (Qlt_bool 0 p); [reflexivity|].
    all: destruct (Qlt_bool p 0); reflexivity. }
  apply Hmul. cbn [num_sub]. unfold fin.
  apply Hdiv.
Qed.

Lemma worldToScreen_degenerate_witness :
  isFiniteNum
    (fst (worldToScreen (Fin 1) (Fin 1) (Fin 900) (Fin 260)
                        (Fin 2) (Fin 2) (Fin (-3)) (Fin 3))) = false.
Proof. apply worldToScreen_degenerate. reflexivity. Defined.

(** ** Range estimation *)

Lemma range_scan_encloses (f : num -> num) (xs : list num) (acc : num * num) :
  range_state acc ->
  range_state (range_scan f xs acc) /\
  (forall y, encloses acc y -> encloses (range_scan f xs acc) y) /\
  (forall x y, In x xs -> f x = Fin y -> encloses (range_scan f xs acc) y).
Proof.
  unfold range_scan. revert acc.
  induction xs as [|x rest IH]; intros acc Hacc.
  - simpl. split; [exact Hacc|]. split; [auto|]. intros ? ? [].
  - cbn [fold_left].
    set (acc' := if negb (isFiniteNum (f x)) then acc
                 else (Math_min (fst acc) (f x), Math_max (snd acc) (f x))).
    assert (Hstep : range_state acc' /\
                    (forall y, encloses acc y -> encloses acc' y) /\
                    (forall y, f x = Fin y -> encloses acc' y)).
    { subst acc'. destruct (f x) as [q| | |] eqn:Efx;
        cbn [isFiniteNum negb];
        try (split; [exact Hacc|]; split; [auto|]; discriminate).
      destruct Hacc as [->|(lo & hi & -> & Hle)].
      - cbn. split; [right; exists q, q; split; [reflexivity|lra]|].
        split.
        + intros y (lo & hi & E & _). discriminate.
        + intros y [= <-]. exists q, q. split; [reflexivity|lra].
      - cbn [fst snd]. rewrite Math_min_fin, Math_max_fin.
        destruct (Qle_bool lo q) eqn:E1; destruct (Qle_bool hi q) eqn:E2.
        all: try apply Qle_bool_iff in E1; try apply Qle_bool_false in E1.
        all: try apply Qle_bool_iff in E2; try apply Qle_bool_false in E2.
        all: split; [right; eexists; eexists; split; [reflexivity|lra]|].
        all: split;
          [ intros y (lo' & hi' & [= <- <-] & Hy);
            eexists; eexists; split; [reflexivity|lra]
          | intros y [= <-]; eexists; eexists; split; [reflexivity|lra] ]. }
    destruct Hstep as (Hs1 & Hs2 & Hs3).
    destruct (IH acc' Hs1) as (H1 & H2 & H3).
    split; [exact H1|]. split.
    + intros y Hy. apply H2. apply Hs2. exact Hy.
    + intros x' y [<-|Hin] Hfx.
      * apply H2. apply Hs3. exact Hfx.
      * eapply H3; eassumption.
Qed.

(** X5.  Whatever the function and the domain, the range estimated is in
    order, and it encloses every finite sample of the function. *)
Theorem estimateRange_encloses_samples
    (f : num -> num) (xMin xMax : num) (samples : nat) :
  let r := estimateRange f xMin xMax samples in
  (fst r <=? snd r)%num = true /\
  forall x y, In x (linspace xMin xMax (Nat.min samples 400)) ->
              f x = Fin y ->
              (fst r <=? Fin y)%num = true /\ (Fin y <=? snd r)%num = true.
Proof.
  set (xs := linspace xMin xMax (Nat.min samples 400)).
  destruct (range_scan_encloses f xs (PInf, NInf) (or_introl eq_refl))
    as (Hst & _ & Hin).
  assert (Hu : exists lo hi,
             unpadded_range f xMin xMax samples = (Fin lo, Fin hi) /\
             lo <= hi /\
             forall x y, In x xs -> f x = Fin y -> lo <= y <= hi).
  { unfold unpadded_range. cbv zeta. fold xs.
    destruct Hst as [E|(lo & hi & E & Hle)].
    - rewrite E. cbn. exists (-1), 1. split; [reflexivity|].
      split; [lra|]. intros x y Hx Hfx.
      destruct (Hin x y Hx Hfx) as (lo & hi & E' & _).
      rewrite E in E'. discriminate.
    - rewrite E. cbn. exists lo, hi. split; [reflexivity|].
      split; [exact Hle|]. intros x y Hx Hfx.
      destruct (Hin x y Hx Hfx) as (lo' & hi' & E' & Hy).
      rewrite E in E'. injection E' as <- <-. exact Hy. }
  destruct Hu as (lo & hi & Eu & Hle & Hall).
  unfold estimateRange. rewrite Eu. cbv zeta. cbn [fst snd num_eqb].
  destruct (Qeq_bool lo hi) eqn:Eq.
  - cbn [fst snd num_sub num_add num_mul num_leb]. unfold fin.
    cbn [num_leb]. split.
    + apply Qle_bool_iff. rewrite !Qred_correct. lra.
    + intros x y Hx Hfx. specialize (Hall x y Hx Hfx).
      split; apply Qle_bool_iff; rewrite !Qred_correct; lra.
  - cbn [fst snd num_sub num_add num_mul num_leb]. unfold fin.
    cbn [num_leb]. split.
    + apply Qle_bool_iff. rewrite !Qred_correct. lra.
    + intros x y Hx Hfx. specialize (Hall x y Hx Hfx).
      split; apply Qle_bool_iff; rewrite !Qred_correct; lra.
Qed.

(** ** Strings *)

(** X6.  [normalizeExpr] returns a normal form: its result carries no
    white space at either end, normalising it again changes nothing, and
    it is the empty string exactly when the input is blank. *)
Theorem normalizeExpr_normal_form (raw : jsstring) :
  trim (normalizeExpr raw) = normalizeExpr raw /\
  normalizeExpr (normalizeExpr raw) = normalizeExpr raw /\
  (normalizeExpr raw = [] <-> trim raw = []).
Proof.
  assert (Habs : forall m, trim (js "abs(" ++ m ++ js ")")
                           = js "abs(" ++ m ++ js ")").
  { intro m. unfold trim.
    change (js "abs(" ++ m ++ js ")")
      with (97%N :: ([98; 115; 40]%N ++ m ++ [41%N])).
    cbn [trimStart]. change (trimmable 97) with false. cbv iota.
    change (97%N :: ([98; 115; 40]%N ++ m ++ [41%N]))
      with ((97%N :: [98; 115; 40]%N ++ m) ++ [41%N]) at 1.
    rewrite app_comm_cons, app_assoc.
    rewrite trimEnd_snoc_keep by reflexivity.
    rewrite <- app_assoc. reflexivity. }
  split; [|split].
  - unfold normalizeExpr.
    destruct (is_empty raw || is_empty (trim raw)); [reflexivity|].
    cbv zeta.
    destruct (includes (js "|") (trim raw)
              && negb (includes (js "abs") (trim raw))).
    + destruct (match_bars (trim raw)) as [m|].
      * apply Habs.
      * apply trim_idem.
    + apply trim_idem.
  - apply normalizeExpr_idempotent.
  - unfold normalizeExpr.
    destruct raw as [|c r].
    + cbn. split; reflexivity.
    + cbn [is_empty orb].
      destruct (trim (c :: r)) as [|d s] eqn:Et.
      * cbn. split; reflexivity.
      * cbn [is_empty]. cbv zeta.
        destruct (includes (js "|") (d :: s)
                  && negb (includes (js "abs") (d :: s))).
        -- destruct (match_bars (d :: s)); split; discriminate.
        -- split; discriminate.
Qed.

Lemma forallb_rev {A : Type} (p : A -> bool) (l : list A) :
  forallb p (rev l) = forallb p l.
Proof.
  induction l as [|a l IH]; [reflexivity|].
  cbn [rev forallb]. rewrite forallb_app, IH. cbn. 
  rewrite andb_true_r. apply andb_comm.
Qed.

Lemma startsWith_abs_snoc (m : jsstring) :
  startsWith (js "abs") (m ++ [bar]) = startsWith (js "abs") m.
Proof.
  change (js "abs") with [97; 98; 115]%N.
  destruct m as [|a [|b [|c r]]]; cbn [app startsWith].
  - reflexivity.
  - change (code_eqb 98 bar) with false.
    destruct (code_eqb 97 a); reflexivity.
  - change (code_eqb 115 bar) with false.
    destruct (code_eqb 97 a), (code_eqb 98 b); reflexivity.
  - reflexivity.
Qed.

Lemma includes_abs_snoc (m : jsstring) :
  includes (js "abs") (m ++ [bar]) = includes (js "abs") m.
Proof.
  induction m as [|a r IH]; [reflexivity|].
  change ((a :: r) ++ [bar]) with (a :: (r ++ [bar])).
  cbn [includes].
  change (a :: r ++ [bar]) with ((a :: r) ++ [bar]).
  rewrite startsWith_abs_snoc, IH. reflexivity.
Qed.

(** X7.  An input whose trimmed form is a bar, a run [m] of characters
    without line terminators, and a bar, is rewritten to [abs(m)] unless
    [m] contains [abs], in which case it is only trimmed.  The run [m] may
    itself contain bars. *)
Theorem normalizeExpr_bars (raw m : jsstring) :
  trim raw = bar :: m ++ [bar] ->
  forallb (fun k => negb (isLineTerminator k)) m = true ->
  normalizeExpr raw =
  if includes (js "abs") m then trim raw else js "abs(" ++ m ++ js ")".
Proof.
  intros Ht Hm. unfold normalizeExpr.
  assert (Hraw : is_empty raw = false).
  { destruct raw; [discriminate|reflexivity]. }
  rewrite Hraw, Ht. cbn [is_empty orb]. cbv zeta.
  assert (Hb : includes (js "|") (bar :: m ++ [bar]) = true) by reflexivity.
  rewrite Hb.
  assert (Ha : includes (js "abs") (bar :: m ++ [bar])
               = includes (js "abs") m).
  { cbn [includes]. rewrite includes_abs_snoc.
    change (startsWith (js "abs") (bar :: m ++ [bar])) with false.
    reflexivity. }
  rewrite Ha.
  destruct (includes (js "abs") m); [reflexivity|].
  cbn [andb negb].
  unfold match_bars. change (code_eqb bar bar) with true. cbv iota.
  rewrite rev_app_distr. cbn [rev app].
  change (code_eqb bar bar) with true.
  rewrite forallb_rev, Hm, rev_involutive. reflexivity.
Qed.

Lemma normalizeExpr_bars_witness :
  normalizeExpr (js " |x|+|y| ") = js "abs(x|+|y)".
Proof.
  apply (normalizeExpr_bars (js " |x|+|y| ") (js "x|+|y")).
  - reflexivity.
  - reflexivity.
Defined.

(** ** Expression compiler and derivative provider, continued *)

Section CompilerContracts.

Variable node : Type.
Variables parse derivative : jsstring -> option node.
Variable evaluate : node -> scope -> outcome * scope.

Lemma is_empty_normalizeExpr (expr : jsstring) :
  is_empty (normalizeExpr expr) = is_empty (trim expr).
Proof.
  unfold normalizeExpr.
  destruct expr as [|c r]; [reflexivity|].
  cbn [is_empty orb].
  destruct (trim (c :: r)) as [|d s]; [reflexivity|].
  cbn [is_empty]. cbv zeta.
  destruct (includes (js "|") (d :: s)
            && negb (includes (js "abs") (d :: s))); [|reflexivity].
  destruct (match_bars (d :: s)); reflexivity.
Qed.

(** X8.  When the two compilers answer [null]: [compileExpression]
    exactly when the input is blank or math.js does not parse the
    normalised text; [compileDerivative] exactly when the input is blank
    or math.js neither differentiates nor parses it.  On a blank input
    math.js is not consulted at all. *)
Theorem compilers_null (expr : jsstring) :
  (compileExpression node parse evaluate expr = None <->
   trim expr = [] \/ parse (normalizeExpr expr) = None) /\
  (compileDerivative node parse derivative evaluate expr = None <->
   trim expr = [] \/
   (derivative (normalizeExpr expr) = None /\
    parse (normalizeExpr expr) = None)).
Proof.
  assert (He : is_empty (normalizeExpr expr) = true <-> trim expr = []).
  { rewrite is_empty_normalizeExpr.
    destruct (trim expr); cbn; split; auto; discriminate. }
  unfold compileDerivative, compileExpression. cbv zeta.
  rewrite normalizeExpr_idempotent.
  destruct (is_empty (normalizeExpr expr)) eqn:E.
  - split; split; auto; intros _; left; apply He; reflexivity.
  - assert (Hne : trim expr <> []).
    { intro H. apply He in H. discriminate. }
    destruct (parse (normalizeExpr expr)) as [code|],
             (derivative (normalizeExpr expr)) as [dcode|].
    all: split; split; try discriminate; auto.
    all: intros [H|H]; try contradiction; try discriminate.
    all: destruct H; discriminate.
Qed.

(** X9.  Whichever way [compileDerivative] obtains its closure, by the
    symbolic derivative or by the numeric fallback, the closure yields a
    finite number or NaN at every argument. *)
Theorem compileDerivative_finite_or_NaN
    (expr : jsstring) (df : num -> num) (x : num) :
  compileDerivative node parse derivative evaluate expr = Some df ->
  isFiniteNum (df x) = true \/ df x = NaN.
Proof.
  unfold compileDerivative, compileExpression. cbv zeta.
  destruct (is_empty (normalizeExpr expr)); [discriminate|].
  destruct (derivative (normalizeExpr expr)) as [dcode|].
  - intros [= <-]. unfold compiled, call_compiled.
    destruct (evaluate dcode [("x"%string, VNum x)]) as [[v|] sc];
      cbn [fst]; [|right; reflexivity].
    destruct v as [n| | |]; cbn [Number_isFinite as_num];
      try (right; reflexivity).
    destruct (isFiniteNum n) eqn:En; [left; exact En|right; reflexivity].
  - destruct (is_empty (normalizeExpr (normalizeExpr expr)));
      [discriminate|].
    destruct (parse (normalizeExpr (normalizeExpr expr))); [|discriminate].
    intros [= <-]. unfold central_difference. cbv zeta.
    apply finite_or_NaN_cases.
Qed.

End CompilerContracts.

Lemma compileDerivative_finite_or_NaN_witness :
  isFiniteNum (Fixture.df_abs (Fin 0)) = true \/ Fixture.df_abs (Fin 0) = NaN.
Proof.
  apply (compileDerivative_finite_or_NaN
           Fixture.expr Fixture.parse Fixture.derivative Fixture.evaluate
           (js "|x|") Fixture.df_abs (Fin 0)).
  reflexivity.
Defined.

(** ** The numeric derivative *)

(** The step of the central difference at a finite argument. *)
Lemma central_step (q : Q) :
  exists h,
    (Fin (1 # 100000) * Math_max (Fin 1) (Math_abs (Fin q)))%num = Fin h /\
    0 < h /\ h == (1 # 100000) * Qmax 1 (Qabs q).
Proof.
  cbn [Math_abs]. unfold fin. rewrite Math_max_fin. cbn [num_mul]. unfold fin.
  eexists. split; [reflexivity|].
  assert (Hv : Qred ((1 # 100000)
                     * (if Qle_bool 1 (Qred (Qabs q))
                        then Qred (Qabs q) else 1))
               == (1 # 100000) * Qmax 1 (Qabs q)).
  { rewrite Qred_correct, if_le_max, Qred_correct. reflexivity. }
  split; [|exact Hv].
  rewrite Hv. pose proof (Q.le_max_l 1 (Qabs q)). lra.
Qed.

Lemma central_difference_secant (f : num -> num) (q h u1 u2 : Q) :
  (Fin (1 # 100000) * Math_max (Fin 1) (Math_abs (Fin q)))%num = Fin h ->
  0 < h ->
  f (Fin (Qred (q + h))) = Fin u1 ->
  f (Fin (Qred (q - h))) = Fin u2 ->
  exists d, central_difference f (Fin q) = Fin d /\
            d == (u1 - u2) / (2 * h).
Proof.
  intros Hh Hpos H1 H2. unfold central_difference. cbv zeta.
  rewrite Hh. cbn [num_add num_sub]. unfold fin. rewrite H1, H2.
  cbn [num_sub num_mul]. unfold fin.
  rewrite num_div_fin by (rewrite Qred_correct; lra).
  unfold fin. cbn [finite_or_NaN isFiniteNum].
  eexists. split; [reflexivity|].
  rewrite !Qred_correct. reflexivity.
Qed.

(** X11.  For an even function that is finite next to the origin, the
    central difference at 0 is 0; so the numeric derivative of [abs] at
    its corner is the finite number 0. *)
Theorem central_difference_even_at_zero (f : num -> num) (z : Q) :
  z == 0 ->
  (forall t, (f (Fin (Qred (- t))) =n= f (Fin (Qred t)))%num) ->
  isFiniteNum (f (Fin (Qred (1 # 100000)))) = true ->
  (central_difference f (Fin z) =n= Fin 0)%num.
Proof.
  intros Hz Heven Hfin.
  destruct (central_step z) as (h & Hh & Hpos & Hv).
  assert (Eh : h == 1 # 100000).
  { rewrite Hv, Hz. reflexivity. }
  assert (E1 : Qred (z + h) = Qred (1 # 100000)).
  { apply Qred_complete. rewrite Hz, Eh. reflexivity. }
  assert (E2 : Qred (z - h) = Qred (- (1 # 100000))).
  { apply Qred_complete. rewrite Hz, Eh. reflexivity. }
  pose proof (Heven (1 # 100000)) as He.
  destruct (f (Fin (Qred (1 # 100000)))) as [u1| | |] eqn:F1;
    try discriminate.
  destruct (f (Fin (Qred (- (1 # 100000))))) as [u2| | |] eqn:F2;
    try contradiction.
  rewrite <- E1 in F1. rewrite <- E2 in F2.
  destruct (central_difference_secant f z h u1 u2 Hh Hpos F1 F2)
    as (d & Ed & Hd).
  rewrite Ed. cbn [num_eq] in *. rewrite Hd, He.
  field. lra.
Qed.

Lemma central_difference_even_at_zero_witness :
  (central_difference Fixture.f_abs (Fin 0) =n= Fin 0)%num.
Proof.
  apply (central_difference_even_at_zero Fixture.f_abs 0).
  - reflexivity.
  - intro t. unfold Fixture.f_abs, compiled, call_compiled.
    cbn. rewrite !Qred_correct.
    rewrite Qabs_opp. reflexivity.
  - reflexivity.
Defined.

(** ** What the curve renderers put on the canvas *)

Lemma points_of_app (p q : list subpath) :
  points_of (p ++ q) = points_of p ++ points_of q.
Proof. unfold points_of. apply flat_map_app. Qed.

Lemma points_of_extend (p : list subpath) (pt : num * num) :
  points_of (extend p pt) = points_of p ++ [pt].
Proof.
  destruct p as [|s p'] using rev_ind; [reflexivity|].
  unfold extend. rewrite rev_app_distr. cbn [rev app].
  destruct s as [pts|x y r].
  - rewrite rev_involutive, !points_of_app. cbn.
    rewrite !app_nil_r, app_assoc. reflexivity.
  - rewrite !points_of_app. reflexivity.
Qed.

Lemma segments_of_app (a b : list shape) :
  segments_of (a ++ b) = segments_of a ++ segments_of b.
Proof.
  induction a as [|s a IH]; [reflexivity|].
  cbn [app segments_of]. destruct s as [st [pts|x y r]|st sp];
    rewrite IH; reflexivity.
Qed.

Lemma segments_of_stroked (st : string) (p : list subpath) :
  List.concat (segments_of (List.map (Stroked st) p)) = points_of p.
Proof.
  induction p as [|s p IH]; [reflexivity|].
  destruct s as [pts|x y r]; cbn [List.map segments_of List.concat].
  - rewrite IH. reflexivity.
  - exact IH.
Qed.

Lemma ink_pen (c : painter) (started : bool) (sx sy : num) :
  let c' := paint c (if started then LineTo sx sy else MoveTo sx sy) in
  ink c' = ink c ++ [(sx, sy)] /\ strokeStyle c' = strokeStyle c.
Proof.
  destruct started; cbn; unfold ink; cbn [painted path].
  - rewrite points_of_extend, app_assoc. split; reflexivity.
  - rewrite points_of_app, app_assoc. split; reflexivity.
Qed.

Lemma ink_cut (c : painter) :
  let c' := paint (paint c Stroke) BeginPath in
  ink c' = ink c /\ strokeStyle c' = strokeStyle c.
Proof.
  cbn. unfold ink. cbn [painted path].
  rewrite segments_of_app, concat_app, segments_of_stroked.
  cbn. rewrite app_nil_r. split; reflexivity.
Qed.

Lemma ink_stroke (c : painter) :
  List.concat (segments_of (painted (paint c Stroke))) = ink c.
Proof.
  cbn. rewrite segments_of_app, concat_app, segments_of_stroked.
  reflexivity.
Qed.

Section CurvePoints.

Variables (W panelH : num) (samples : nat) (fn : num -> num).
Variables (xMin_ xMax_ yMin_ yMax_ : num).

Let to_screen (x : num) : num * num :=
  worldToScreen x (fn x) W panelH xMin_ xMax_ yMin_ yMax_.
Let finite_at (x : num) : bool := isFiniteNum (fn x).

Lemma script_loop_ink (idx : list nat) :
  forall (started : bool) (c : painter),
    let c' :=
      fold_left paint
        (ScriptJs.curve_loop W panelH samples fn xMin_ xMax_ yMin_ yMax_
           idx started) c in
    ink c' =
    ink c ++ List.map to_screen
               (filter finite_at
                  (List.map (ScriptJs.sample_x samples xMin_ xMax_) idx)) /\
    strokeStyle c' = strokeStyle c.
Proof.
  induction idx as [|i rest IH]; intros started c.
  - cbn. rewrite app_nil_r. split; reflexivity.
  - cbn [ScriptJs.curve_loop List.map filter]. unfold finite_at at 1.
    destruct (isFiniteNum (fn (ScriptJs.sample_x samples xMin_ xMax_ i)))
      eqn:E; cbn [negb].
    + destruct (worldToScreen (ScriptJs.sample_x samples xMin_ xMax_ i)
                  (fn (ScriptJs.sample_x samples xMin_ xMax_ i))
                  W panelH xMin_ xMax_ yMin_ yMax_) as [sx sy] eqn:Ews.
      cbn [fold_left List.map].
      destruct (ink_pen c started sx sy) as [Hi Hs].
      replace (if negb started then MoveTo sx sy else LineTo sx sy)
        with (if started then LineTo sx sy else MoveTo sx sy)
        by (destruct started; reflexivity).
      destruct (IH true (paint c (if started then LineTo sx sy
                                  else MoveTo sx sy))) as [IH1 IH2].
      cbv zeta in IH1, IH2. rewrite IH1, IH2, Hi, Hs.
      unfold to_screen at 2. rewrite Ews, <- app_assoc.
      split; reflexivity.
    + apply IH.
Qed.

Lemma part_loop_ink (xs : list num) :
  forall (started : bool) (lastY : option num) (c : painter),
    let c' :=
      fold_left paint
        (Part000.curve_loop W panelH fn xMin_ xMax_ yMin_ yMax_
           xs started lastY) c in
    ink c' = ink c ++ List.map to_screen (filter finite_at xs) /\
    strokeStyle c' = strokeStyle c.
Proof.
  induction xs as [|x rest IH]; intros started lastY c.
  - cbn. rewrite app_nil_r. split; reflexivity.
  - cbn [Part000.curve_loop filter]. unfold finite_at at 1.
    destruct (isFiniteNum (fn x)) eqn:E; cbn [negb].
    + destruct (worldToScreen x (fn x) W panelH xMin_ xMax_ yMin_ yMax_)
        as [sx sy] eqn:Ews.
      cbv zeta.
      set (cut := started && Part000.isFinite_last lastY &&
                  match lastY with
                  | Some l =>
                      Part000.exceeds Part000.JUMP_ABS Part000.JUMP_REL
                        (fn x) l
                  | None => false
                  end).
      cbn [List.map]. unfold to_screen at 1. rewrite Ews.
      destruct cut.
      * cbn [app fold_left negb].
        destruct (ink_cut c) as [Hc1 Hc2]. cbv zeta in Hc1, Hc2.
        destruct (ink_pen (paint (paint c Stroke) BeginPath) false sx sy)
          as [Hi Hs]. cbv zeta in Hi, Hs.
        destruct (IH true (Some (fn x))
                    (paint (paint (paint c Stroke) BeginPath)
                       (MoveTo sx sy))) as [IH1 IH2].
        cbv zeta in IH1, IH2.
        rewrite IH1, IH2, Hi, Hs, Hc1, Hc2, <- app_assoc.
        split; reflexivity.
      * cbn [app fold_left].
        replace (if negb started then MoveTo sx sy else LineTo sx sy)
          with (if started then LineTo sx sy else MoveTo sx sy)
          by (destruct started; reflexivity).
        destruct (ink_pen c started sx sy) as [Hi Hs].
        cbv zeta in Hi, Hs.
        destruct (IH true (Some (fn x))
                    (paint c (if started then LineTo sx sy
                              else MoveTo sx sy))) as [IH1 IH2].
        cbv zeta in IH1, IH2.
        rewrite IH1, IH2, Hi, Hs, <- app_assoc.
        split; reflexivity.
    + apply IH.
Qed.

(** X12.  [drawCurve] of script.js strokes the screen points of exactly
    the samples at which the function is finite, each once and in sample
    order, spread over its segments. *)
Theorem drawCurve_script_points (color : string) (yOffset : num) :
  List.concat (segments (ScriptJs.drawCurve W panelH samples fn color
                      xMin_ xMax_ yMin_ yMax_ yOffset))
  = List.map to_screen
      (filter finite_at
         (List.map (ScriptJs.sample_x samples xMin_ xMax_)
            (seq 0 samples))).
Proof.
  unfold segments, render, ScriptJs.drawCurve.
  rewrite !fold_left_app.
  set (c0 := fold_left paint [Save; Translate (Fin 0) yOffset; BeginPath]
               blank).
  destruct (script_loop_ink (seq 0 samples) false c0) as [Hi _].
  cbv zeta in Hi.
  set (c1 := fold_left paint _ c0) in *.
  change (fold_left paint
            [LineWidth (Fin 2); StrokeStyle color; Stroke; Restore] c1)
    with (paint (paint c1 (StrokeStyle color)) Stroke).
  rewrite ink_stroke. unfold ink at 1. cbn [paint painted path].
  fold (ink c1). rewrite Hi. reflexivity.
Qed.

(** X13.  [drawCurve] of the variant with jump detection strokes the same
    points: cutting the path at a jump neither loses nor repeats a
    sample. *)
Theorem drawCurve_part_points (color : string) (yOffset : num) :
  List.concat (segments (Part000.drawCurve W panelH samples fn color
                      xMin_ xMax_ yMin_ yMax_ yOffset))
  = List.map to_screen (filter finite_at (linspace xMin_ xMax_ samples)).
Proof.
  unfold segments, render, Part000.drawCurve.
  rewrite !fold_left_app.
  set (c0 := fold_left paint
               [Save; Translate (Fin 0) yOffset; LineWidth (Fin 2);
                StrokeStyle color; BeginPath] blank).
  destruct (part_loop_ink (linspace xMin_ xMax_ samples) false None c0)
    as [Hi _].
  cbv zeta in Hi.
  set (c1 := fold_left paint _ c0) in *.
  change (fold_left paint [Stroke; Restore] c1) with (paint c1 Stroke).
  rewrite ink_stroke, Hi. reflexivity.
Qed.

End CurvePoints.

(** ** The dual-threshold test and the corner step *)

Lemma exceeds_finite_args (abs_tol rel_tol a b : num) :
  Part000.exceeds abs_tol rel_tol a b = true ->
  isFiniteNum a = true /\ isFiniteNum b = true.
Proof.
  unfold Part000.exceeds, num_gtb. cbv zeta.
  destruct a as [p| | |], b as [q| | |]; try (split; reflexivity).
  all: intro H; exfalso; apply andb_true_iff in H as [H1 H2].
  all: cbn [num_sub Math_abs] in H1, H2.
  all: try (destruct abs_tol; discriminate H1).
  all: unfold fin in H2; rewrite ?Math_max_fin in H2.
  all: cbn [Math_max num_leb] in H2.
  all: try (destruct (Qle_bool _ _) in H2).
  all: cbn [Math_max num_leb num_div] in H2.
  all: destruct rel_tol; discriminate H2.
Qed.

Lemma exceeds_false_left (abs_tol rel_tol a b : num) :
  isFiniteNum a = false -> Part000.exceeds abs_tol rel_tol a b = false.
Proof.
  intro Ha. destruct (Part000.exceeds abs_tol rel_tol a b) eqn:E;
    [|reflexivity].
  apply exceeds_finite_args in E. destruct E as [E _]. congruence.
Qed.

Lemma exceeds_false_right (abs_tol rel_tol a b : num) :
  isFiniteNum b = false -> Part000.exceeds abs_tol rel_tol a b = false.
Proof.
  intro Hb. destruct (Part000.exceeds abs_tol rel_tol a b) eqn:E;
    [|reflexivity].
  apply exceeds_finite_args in E. destruct E as [_ E]. congruence.
Qed.

(** X14.  The dual-threshold test is symmetric in the two values, and it
    fires only between two finite values, whatever the thresholds:
    against an infinity the relative jump is NaN, and NaN compares
    false. *)
Theorem exceeds_symmetric_finite (abs_tol rel_tol a b : num) :
  Part000.exceeds abs_tol rel_tol a b = Part000.exceeds abs_tol rel_tol b a /\
  (Part000.exceeds abs_tol rel_tol a b = true ->
   isFiniteNum a = true /\ isFiniteNum b = true).
Proof.
  split; [|apply exceeds_finite_args].
  destruct (isFiniteNum a) eqn:Ea.
  2:{ rewrite exceeds_false_left, exceeds_false_right by exact Ea.
      reflexivity. }
  destruct (isFiniteNum b) eqn:Eb.
  2:{ rewrite exceeds_false_right, exceeds_false_left by exact Eb.
      reflexivity. }
  destruct a as [p| | |]; try discriminate.
  destruct b as [q| | |]; try discriminate.
  unfold Part000.exceeds. cbv zeta.
  change (Math_abs (Fin p - Fin q)%num)
    with (Fin (Qred (Qabs (Qred (p - q))))).
  change (Math_abs (Fin q - Fin p)%num)
    with (Fin (Qred (Qabs (Qred (q - p))))).
  change (Math_abs (Fin p)) with (Fin (Qred (Qabs p))).
  change (Math_abs (Fin q)) with (Fin (Qred (Qabs q))).
  assert (E1 : Qred (Qabs (Qred (p - q))) = Qred (Qabs (Qred (q - p)))).
  { apply Qred_complete. rewrite !Qred_correct.
    setoid_replace (q - p) with (- (p - q)) by ring.
    symmetry. apply Qabs_opp. }
  rewrite E1, !Math_max_fin.
  assert (E2 : (if Qle_bool (Qred (Qabs p)) (Qred (Qabs q))
                then Qred (Qabs q) else Qred (Qabs p))
               = (if Qle_bool (Qred (Qabs q)) (Qred (Qabs p))
                  then Qred (Qabs p) else Qred (Qabs q))).
  { destruct (Qle_bool (Qred (Qabs p)) (Qred (Qabs q))) eqn:L1,
             (Qle_bool (Qred (Qabs q)) (Qred (Qabs p))) eqn:L2;
      try reflexivity.
    - apply Qle_bool_iff in L1, L2. rewrite !Qred_correct in L1, L2.
      apply Qred_complete. apply Qle_antisym; assumption.
    - apply Qle_bool_false in L1, L2. exfalso. lra. }
  rewrite E2. reflexivity.
Qed.

Section CornerStep.

Variables (W panelH xMin xMax : num) (dRange : num * num).
Variables (f dfn : num -> num).

(** X15.  What one iteration of [drawDerivativeWithHoles] paints at a
    sample where it finds a corner: both hole markers, always (the
    quotients are finite there), each filled in white and ringed in the
    hole colour; the closing [stroke] then rings the second marker again
    in the curve colour.  No polyline is stroked: the [beginPath] of the
    first marker drops the derivative path built up to the corner, and
    the path is left empty. *)
Theorem corner_step_paints (c : painter) (H x : num) (started : bool) :
  let h := Part000.half_step H in
  let left := Part000.left_quotient f x h in
  let right := Part000.right_quotient f x h in
  let mark y :=
    let p := worldToScreen x y W panelH xMin xMax
               (fst dRange) (snd dRange) in
    Circle (fst p) (snd p) (Fin 3) in
  let step :=
    Part000.holes_step W panelH f xMin xMax dRange dfn H x started in
  isFiniteNum (dfn x) = true ->
  isFiniteNum (f (x - h)%num) && isFiniteNum (f (x + h)%num) = true ->
  Part000.exceeds Part000.CONT_ABS Part000.CONT_REL
    (f (x + h)%num) (f (x - h)%num) = false ->
  Part000.exceeds Part000.SLOPE_ABS Part000.SLOPE_REL left right = true ->
  painted (fold_left paint (fst step) c)
  = painted c
    ++ [Filled "#fff" (mark left); Stroked "#ef4444" (mark left);
        Filled "#fff" (mark right); Stroked "#ef4444" (mark right);
        Stroked "#10b981" (mark right)] /\
  path (fold_left paint (fst step) c) = [] /\
  snd step = false.
Proof.
  intros h left right mark step Hy Hfin Hcont Hcorner.
  destruct (exceeds_finite_args _ _ _ _ Hcorner) as [Hl Hr].
  subst step. unfold Part000.holes_step. cbv zeta.
  fold h. fold left. fold right.
  rewrite Hy, Hfin, Hcont, Hcorner. cbn [negb orb].
  unfold Part000.drawHole. rewrite Hl, Hr. cbn [negb].
  subst mark. unfold worldToScreen. cbv zeta. cbn [fst snd].
  destruct started; cbn [negb fst snd app fold_left paint painted path
                         strokeStyle fillStyle List.map];
    rewrite <- !app_assoc; cbn [app];
      (split; [reflexivity|split; reflexivity]).
Qed.

End CornerStep.

Lemma corner_step_paints_witness :
  holes_of
    (painted
       (fold_left paint
          (fst (Part000.holes_step (Fin 900) (Fin 260) Fixture.f_abs
                  (Fin (-6)) (Fin 6) (Fin (-2), Fin 2) Fixture.df_abs
                  (Fin 1) (Fin (1 # 10)) true))
          blank))
  = [(Fin (915 # 2), Fin 169); (Fin (915 # 2), Fin 65)].
Proof.
  destruct (corner_step_paints (Fin 900) (Fin 260) (Fin (-6)) (Fin 6)
              (Fin (-2), Fin 2) Fixture.f_abs Fixture.df_abs
              blank (Fin 1) (Fin (1 # 10)) true) as (Hp & _ & _).
  - reflexivity.
  - reflexivity.
  - reflexivity.
  - reflexivity.
  - rewrite Hp. reflexivity.
Defined.

(** ** The jump test of the curve renderer *)

(** X20.  Between two finite samples the jump test of [drawCurve] never
    fires when they are at most 0.75 apart, and always fires when they
    are more than 0.75 apart and not of one sign: a steep continuous
    curve crossing zero is cut like a discontinuous one. *)
Theorem jump_test_cases (y l : Q) :
  (Qabs (y - l) <= 3 # 4 ->
   Part000.exceeds Part000.JUMP_ABS Part000.JUMP_REL (Fin y) (Fin l)
   = false) /\
  (y * l <= 0 -> 3 # 4 < Qabs (y - l) ->
   Part000.exceeds Part000.JUMP_ABS Part000.JUMP_REL (Fin y) (Fin l)
   = true).
Proof.
  split.
  - intro Hsmall.
    destruct (Part000.exceeds Part000.JUMP_ABS Part000.JUMP_REL
                (Fin y) (Fin l)) eqn:E; [|reflexivity].
    apply (exceeds_spec (3 # 4) (2 # 5) y l) in E. lra.
  - intros Hsign Hbig.
    apply (exceeds_spec (3 # 4) (2 # 5) y l).
    split; [exact Hbig|].
    assert (HM : Qmax (1 # 1000000000) (Qmax (Qabs y) (Qabs l))
                 <= Qabs (y - l)).
    { destruct (Qabs_cases y) as [[Hy Ey]|[Hy Ey]];
        destruct (Qabs_cases l) as [[Hl El]|[Hl El]];
        destruct (Qabs_cases (y - l)) as [[Hd Ed]|[Hd Ed]];
        rewrite Ey, El, Ed in *.
      all: apply Q.max_lub; [lra|apply Q.max_lub]; nra. }
    lra.
Qed.

(** ** The piecewise editor *)

(** The branch a kept row contributes when another kept row follows. *)
Lemma piecewise_loop_app (parts : list row) (r : row) :
  piecewise_loop (parts ++ [r])
  = flat_map
      (fun p =>
         if negb (is_empty (trim (row_cond p)))
         then js "(" ++ row_cond p ++ js ")?(" ++ row_expr p ++ js "):"
         else js "(" ++ row_expr p ++ js ")")
      parts
    ++ js "(" ++ row_expr r ++ js ")".
Proof.
  induction parts as [|p rest IH].
  - cbn [app piecewise_loop flat_map]. rewrite app_nil_r. reflexivity.
  - change ((p :: rest) ++ [r]) with (p :: (rest ++ [r])).
    cbn [piecewise_loop flat_map]. rewrite IH.
    destruct (rest ++ [r]) as [|q tl] eqn:E.
    + destruct rest; discriminate.
    + rewrite <- app_assoc. reflexivity.
Qed.

(** X21.  [buildPiecewise] on rows of which [r] is the last with a
    non-blank expression: rows with a blank expression are skipped, every
    kept row before [r] gives [(cond)?(expr):] when its condition is not
    blank and the bare [(expr)] when it is, and [r] gives the closing
    [(expr)] whatever its condition says.  The previous expression plays
    no part. *)
Theorem buildPiecewise_shape (before after : list row) (r : row)
    (expr : jsstring) :
  is_empty (trim (row_expr r)) = false ->
  Forall (fun p => is_empty (trim (row_expr p)) = true) after ->
  buildPiecewise (before ++ r :: after) expr
  = flat_map
      (fun p =>
         if is_empty (trim (row_expr p)) then []
         else if negb (is_empty (trim (row_cond p)))
         then js "(" ++ row_cond p ++ js ")?(" ++ row_expr p ++ js "):"
         else js "(" ++ row_expr p ++ js ")")
      before
    ++ js "(" ++ row_expr r ++ js ")".
Proof.
  intros Hr Hafter. unfold buildPiecewise. cbv zeta.
  set (keep := fun p : row => negb (is_empty (trim (row_expr p)))).
  assert (Hf : filter keep (before ++ r :: after) = filter keep before ++ [r]).
  { rewrite filter_app. cbn [filter]. unfold keep at 2. rewrite Hr.
    cbn [negb]. f_equal. f_equal.
    induction Hafter as [|p rest Hp _ IH]; [reflexivity|].
    cbn [filter]. unfold keep at 1. rewrite Hp. exact IH. }
  rewrite Hf.
  destruct (filter keep before ++ [r]) as [|q tl] eqn:E.
  { destruct (filter keep before); discriminate. }
  rewrite <- E. rewrite piecewise_loop_app. f_equal.
  clear. induction before as [|p rest IH]; [reflexivity|].
  cbn [filter flat_map]. unfold keep at 1.
  destruct (is_empty (trim (row_expr p))); cbn [negb].
  - exact IH.
  - cbn [flat_map]. rewrite IH. reflexivity.
Qed.

Lemma buildPiecewise_shape_witness :
  buildPiecewise
    [mkRow (js "x<0") (js "-x"); mkRow (js "") (js "x");
     mkRow (js "x>9") (js "x^2"); mkRow (js "x>1") (js "  ")]
    (js "sin(x)")
  = js "(x<0)?(-x):(x)(x^2)".
Proof.
  apply (buildPiecewise_shape
           [mkRow (js "x<0") (js "-x"); mkRow (js "") (js "x")]
           [mkRow (js "x>1") (js "  ")]
           (mkRow (js "x>9") (js "x^2")) (js "sin(x)")).
  - reflexivity.
  - repeat constructor.
Defined.

(** X22.  With no row of non-blank expression [buildPiecewise] leaves the
    expression as it is. *)
Theorem buildPiecewise_blank (rows : list row) (expr : jsstring) :
  Forall (fun p => is_empty (trim (row_expr p)) = true) rows ->
  buildPiecewise rows expr = expr.
Proof.
  intro H. unfold buildPiecewise. cbv zeta.
  assert (Hf : filter (fun r => negb (is_empty (trim (row_expr r)))) rows
               = []).
  { induction H as [|p rest Hp _ IH]; [reflexivity|].
    cbn [filter]. rewrite Hp. exact IH. }
  rewrite Hf. reflexivity.
Qed.

Lemma buildPiecewise_blank_witness :
  buildPiecewise [mkRow (js "x<0") (js " "); mkRow (js "") (js "")]
    (js "sin(x)")
  = js "sin(x)".
Proof.
  apply buildPiecewise_blank. repeat constructor.
Defined.

(** ** Snippet insertion *)

Lemma slice_middle (prefix sel suffix : jsstring) :
  slice (prefix ++ sel ++ suffix) (List.length prefix)
        (List.length prefix + List.length sel) = sel.
Proof.
  unfold slice.
  replace (List.length prefix + List.length sel - List.length prefix)%nat
    with (List.length sel) by lia.
  rewrite skipn_app, skipn_all, Nat.sub_diag. cbn [skipn app].
  rewrite firstn_app, firstn_all, Nat.sub_diag. cbn [firstn].
  apply app_nil_r.
Qed.

(** X23.  [insertSnippet] on an expression split by the selection into
    prefix, selected text and suffix: the snippet's two halves go around
    the selected text and nothing else changes; the cursor is set
    [cursorDelta] past the end of the selected text, before the second
    half.  Without an input element the snippet is appended and no cursor
    is set.  [insertCall] wraps the selected text in a call. *)
Theorem insertSnippet_selection
    (prefix sel suffix before after name : jsstring) (cursorDelta : Z) :
  let el := Some (List.length prefix, (List.length prefix + List.length sel)%nat) in
  let expr := prefix ++ sel ++ suffix in
  insertSnippet before after cursorDelta el expr
  = (prefix ++ before ++ sel ++ after ++ suffix,
     Some (Z.of_nat (List.length (prefix ++ before ++ sel)) + cursorDelta)%Z)
  /\
  insertSnippet before after cursorDelta None expr
  = (expr ++ before ++ after, None) /\
  fst (insertCall name el expr)
  = prefix ++ name ++ js "(" ++ sel ++ js ")" ++ suffix.
Proof.
  intros el expr.
  assert (Hgen : forall b a d,
            insertSnippet b a d el expr
            = (prefix ++ b ++ sel ++ a ++ suffix,
               Some (Z.of_nat (List.length (prefix ++ b ++ sel)) + d)%Z)).
  { intros b a d. unfold insertSnippet, el, expr. cbv zeta.
    rewrite slice_middle.
    assert (E0 : slice (prefix ++ sel ++ suffix) 0 (List.length prefix)
                 = prefix).
    { unfold slice. rewrite Nat.sub_0_r. cbn [skipn].
      rewrite firstn_app, firstn_all, Nat.sub_diag. cbn [firstn].
      apply app_nil_r. }
    assert (E1 : slice_from (prefix ++ sel ++ suffix)
                   (List.length prefix + List.length sel) = suffix).
    { unfold slice_from. rewrite app_assoc.
      rewrite skipn_app, skipn_all2 by (rewrite length_app; lia).
      rewrite length_app, Nat.sub_diag. reflexivity. }
    rewrite E0, E1. f_equal. f_equal.
    rewrite !length_app, !Nat2Z.inj_add.
    destruct sel; cbn [is_empty List.length]; lia. }
  split; [apply Hgen|]. split.
  - unfold insertSnippet, expr. cbv zeta.
    unfold slice, slice_from.
    rewrite Nat.sub_diag, Nat.sub_0_r. cbn [firstn skipn].
    rewrite skipn_all, firstn_all. cbn [app]. rewrite app_nil_r.
    reflexivity.
  - unfold insertCall. rewrite Hgen. cbn [fst].
    rewrite <- !app_assoc. reflexivity.
Qed.

(** ** The derivative curve around a corner *)

Lemma paint_path_only (calls : list call) :
  forall c1 c2 : painter,
    path c1 = path c2 ->
    path (fold_left paint calls c1) = path (fold_left paint calls c2).
Proof.
  induction calls as [|k rest IH]; intros c1 c2 Hp; [exact Hp|].
  cbn [fold_left]. apply IH.
  destruct k; cbn [paint path]; rewrite ?Hp; reflexivity.
Qed.

Lemma segments_of_stroked_style (s1 s2 : string) (p : list subpath) :
  segments_of (List.map (Stroked s1) p)
  = segments_of (List.map (Stroked s2) p).
Proof.
  induction p as [|s p IH]; [reflexivity|].
  destruct s as [pts|x y r]; cbn [List.map segments_of]; rewrite IH;
    reflexivity.
Qed.

Section DerivativeLoop.

Variables (W panelH xMin xMax : num) (dRange : num * num).
Variables (f dfn : num -> num) (H : num).

Let step := Part000.holes_step W panelH f xMin xMax dRange dfn H.
Let loop := Part000.holes_loop W panelH f xMin xMax dRange dfn H.

(** One iteration strokes no polyline; after a corner the path is empty
    and the pen is up. *)
Lemma holes_step_painter (c : painter) (x : num) (started : bool) :
  segments_of (painted (fold_left paint (fst (step x started)) c))
  = segments_of (painted c) /\
  (Part000.exceeds Part000.SLOPE_ABS Part000.SLOPE_REL
     (Part000.left_quotient f x (Part000.half_step H))
     (Part000.right_quotient f x (Part000.half_step H)) = true ->
   isFiniteNum (dfn x) = true ->
   isFiniteNum (f (x - Part000.half_step H)%num)
   && isFiniteNum (f (x + Part000.half_step H)%num) = true ->
   Part000.exceeds Part000.CONT_ABS Part000.CONT_REL
     (f (x + Part000.half_step H)%num) (f (x - Part000.half_step H)%num)
   = false ->
   path (fold_left paint (fst (step x started)) c) = [] /\
   snd (step x started) = false).
Proof.
  unfold step, Part000.holes_step. cbv zeta.
  set (h := Part000.half_step H).
  set (left := Part000.left_quotient f x h).
  set (right := Part000.right_quotient f x h).
  destruct (negb (isFiniteNum (dfn x))
            || (negb (isFiniteNum (f (x - h)%num)
                      && isFiniteNum (f (x + h)%num))
                || Part000.exceeds Part000.CONT_ABS Part000.CONT_REL
                     (f (x + h)%num) (f (x - h)%num))) eqn:Eg.
  { cbn [fst snd fold_left]. split; [reflexivity|].
    intros _ Hy Hfin Hcont. rewrite Hy, Hfin, Hcont in Eg.
    discriminate Eg. }
  unfold worldToScreen at 1. cbv zeta.
  destruct (Part000.exceeds Part000.SLOPE_ABS Part000.SLOPE_REL left right)
    eqn:Ec.
  - destruct (exceeds_finite_args _ _ _ _ Ec) as [Hl Hr].
    unfold Part000.drawHole. rewrite Hl, Hr. cbn [negb].
    unfold worldToScreen. cbv zeta. cbn [fst snd].
    destruct started;
      cbn [negb fst snd app fold_left paint painted path strokeStyle
           fillStyle List.map];
      rewrite <- !app_assoc; cbn [app];
      rewrite !segments_of_app; cbn [segments_of];
      rewrite app_nil_r; (split; [reflexivity|]);
      intros _ _ _ _; split; reflexivity.
  - cbn [fst snd fold_left].
    destruct started; cbn [negb paint painted];
      (split; [reflexivity|]); intro Hc; discriminate Hc.
Qed.

Lemma holes_loop_no_polyline (xs : list num) :
  forall (started : bool) (c : painter),
    segments_of (painted (fold_left paint (loop xs started) c))
    = segments_of (painted c).
Proof.
  induction xs as [|x rest IH]; intros started c; [reflexivity|].
  unfold loop. cbn [Part000.holes_loop]. fold step. fold loop.
  pose proof (holes_step_painter c x started) as [Hs _].
  destruct (step x started) as [calls started'].
  cbn [fst] in Hs. rewrite fold_left_app, IH. exact Hs.
Qed.

Lemma holes_loop_split (pre rest : list num) :
  forall started : bool,
  exists (calls : list call) (started' : bool),
    loop (pre ++ rest) started = calls ++ loop rest started'.
Proof.
  induction pre as [|x pre IH]; intro started.
  - exists [], started. reflexivity.
  - change ((x :: pre) ++ rest) with (x :: (pre ++ rest)).
    unfold loop. cbn [Part000.holes_loop]. fold step. fold loop.
    destruct (step x started) as [calls started'].
    destruct (IH started') as (calls' & s'' & E).
    exists (calls ++ calls'), s''. rewrite E, app_assoc. reflexivity.
Qed.

(** X25.  What [drawDerivativeWithHoles] strokes of the derivative curve
    when it finds a corner at an interior sample [xc]: the loop itself
    never strokes a polyline, and the marker drawn at the corner empties
    the path, so the polylines stroked at the end are those of the
    samples after the corner alone; the curve built from the samples
    before it is never stroked. *)
Theorem drawDerivativeWithHoles_before_corner
    (samples : nat) (pre post : list num) (xc : num) :
  removelast (tl (linspace xMin xMax (Nat.min samples 500)))
  = pre ++ xc :: post ->
  H = ((xMax - xMin)
       / of_Z (Z.of_nat
                 (List.length (linspace xMin xMax (Nat.min samples 500)))
               - 1))%num ->
  isFiniteNum (dfn xc) = true ->
  isFiniteNum (f (xc - Part000.half_step H)%num)
  && isFiniteNum (f (xc + Part000.half_step H)%num) = true ->
  Part000.exceeds Part000.CONT_ABS Part000.CONT_REL
    (f (xc + Part000.half_step H)%num) (f (xc - Part000.half_step H)%num)
  = false ->
  Part000.exceeds Part000.SLOPE_ABS Part000.SLOPE_REL
    (Part000.left_quotient f xc (Part000.half_step H))
    (Part000.right_quotient f xc (Part000.half_step H)) = true ->
  segments (Part000.drawDerivativeWithHoles W panelH samples f (Some dfn)
              xMin xMax dRange true)
  = segments (BeginPath :: loop post false ++ [Stroke]).
Proof.
  intros Hxs HH Hy Hfin Hcont Hcorner.
  unfold Part000.drawDerivativeWithHoles. cbn [negb]. cbv zeta.
  rewrite Hxs, <- HH. fold loop.
  destruct (holes_loop_split pre (xc :: post) false) as (calls & s' & E).
  unfold segments, render.
  rewrite !fold_left_app.
  set (c0 := fold_left paint
               [Save; Translate (Fin 0) (panelH + Fin 12)%num;
                LineWidth (Fin 2); StrokeStyle "#10b981"; BeginPath] blank).
  change (fold_left paint (BeginPath :: loop post false ++ [Stroke]) blank)
    with (fold_left paint (loop post false ++ [Stroke])
            (paint blank BeginPath)).
  rewrite fold_left_app.
  set (cB := paint blank BeginPath).
  change (fold_left paint [Stroke; Restore] ?c) with (paint c Stroke).
  cbn [fold_left paint painted].
  rewrite !segments_of_app, !holes_loop_no_polyline.
  change (segments_of (painted c0)) with (@nil (list (num * num))).
  change (segments_of (painted cB)) with (@nil (list (num * num))).
  cbn [app].
  rewrite (segments_of_stroked_style _ (strokeStyle
             (fold_left paint (loop post false) cB))).
  f_equal. f_equal.
  rewrite E, fold_left_app.
  unfold loop at 1. cbn [Part000.holes_loop]. fold step. fold loop.
  set (c1 := fold_left paint calls c0).
  assert (Hstep : path (fold_left paint (fst (step xc s')) c1) = [] /\
                  snd (step xc s') = false).
  { apply (holes_step_painter c1 xc s'); assumption. }
  destruct (step xc s') as [calls_c started_c].
  cbn [fst snd] in Hstep. destruct Hstep as [Hp ->].
  rewrite fold_left_app. apply paint_path_only. rewrite Hp. reflexivity.
Qed.

End DerivativeLoop.

Lemma drawDerivativeWithHoles_before_corner_witness :
  segments (Part000.drawDerivativeWithHoles (Fin 900) (Fin 260) 4
              Fixture.f_abs (Some Fixture.df_abs)
              (Fin (-19 # 10)) (Fin (11 # 10)) (Fin (-2), Fin 2) true)
  = [].
Proof.
  rewrite (drawDerivativeWithHoles_before_corner
             (Fin 900) (Fin 260) (Fin (-19 # 10)) (Fin (11 # 10))
             (Fin (-2), Fin 2) Fixture.f_abs Fixture.df_abs (Fin 1)
             4 [Fin (-9 # 10)] [] (Fin (1 # 10))).
  - reflexivity.
  - reflexivity.
  - reflexivity.
  - reflexivity.
  - reflexivity.
  - reflexivity.
  - reflexivity.
Defined.

(** ** Markers of undefined points *)

(** X26.  The midpoint test of the marker loop does catch a corner that
    falls between two samples: for [abs] and samples [x0 < 0 < x1], a
    marker is drawn at the midpoint whenever the corner is more than
    7.5% of the spacing away from both samples, at the height
    [(x0 + x1) / (x1 - x0)], the mean of the two one-sided quotients. *)
Theorem mark_step_abs_corner
    (W panelH xMin xMax : num) (dLo dHi x0 x1 : Q) (f : num -> num) :
  x0 < 0 -> 0 < x1 ->
  (forall t, (f (Fin t) =n= Fin (Qabs t))%num) ->
  Qabs (x0 + x1) < (17 # 20) * (x1 - x0) ->
  exists xm ym,
    xm == (x0 + x1) / 2 /\ ym == (x0 + x1) / (x1 - x0) /\
    render (mark_step W panelH f xMin xMax (Fin dLo, Fin dHi)
              (Fin x0) (Fin x1))
    = [Filled "red"
         (Circle
            (fst (worldToScreen (Fin xm) (Fin ym) W panelH xMin xMax
                    (Fin dLo) (Fin dHi)))
            (snd (worldToScreen (Fin xm) (Fin ym) W panelH xMin xMax
                    (Fin dLo) (Fin dHi)))
            (Fin 3))].
Proof.
  intros Hx0 Hx1 Hf Hfar. unfold mark_step. cbv zeta.
  repeat (progress (cbn [num_add num_sub num_mul fst snd]; unfold fin)).
  set (XM := Qred ((1 # 2) * Qred (x0 + x1))).
  set (HH := Qred ((1 # 2) * Qred (x1 - x0))).
  assert (EXM : XM == (x0 + x1) / 2).
  { unfold XM. rewrite !Qred_correct. field. }
  assert (EHH : HH == (x1 - x0) / 2).
  { unfold HH. rewrite !Qred_correct. field. }
  assert (E2XM : 2 * XM == x0 + x1) by (rewrite EXM; field).
  assert (E2HH : 2 * HH == x1 - x0) by (rewrite EHH; field).
  assert (HHpos : 0 < HH) by lra.
  pose proof (Hf XM) as F0.
  pose proof (Hf (Qred (XM - HH))) as F1.
  pose proof (Hf (Qred (XM + HH))) as F2.
  destruct (f (Fin XM)) as [v0| | |]; try contradiction.
  destruct (f (Fin (Qred (XM - HH)))) as [v1| | |]; try contradiction.
  destruct (f (Fin (Qred (XM + HH)))) as [v2| | |]; try contradiction.
  cbn [num_eq] in F0, F1, F2. rewrite Qred_correct in F1, F2.
  assert (F1' : v1 == HH - XM).
  { rewrite F1. rewrite Qabs_neg by lra. ring. }
  assert (F2' : v2 == XM + HH).
  { rewrite F2. apply Qabs_pos. lra. }
  repeat (progress (cbn [num_sub]; unfold fin)).
  rewrite !num_div_fin by lra.
  unfold fin. cbn [isFiniteNum negb orb].
  set (L := Qred (Qred (v0 - v1) / HH)).
  set (R := Qred (Qred (v2 - v0) / HH)).
  set (t := XM / HH).
  assert (Ht : Qabs t < 17 # 20).
  { unfold t, Qdiv. rewrite Qabs_Qmult.
    rewrite (Qabs_pos (/ HH)) by (apply Qlt_le_weak, Qinv_lt_0_compat; lra).
    apply Qlt_shift_div_r; [exact HHpos|].
    assert (E : 2 * Qabs XM == Qabs (x0 + x1)).
    { rewrite <- E2XM, Qabs_Qmult. rewrite (Qabs_pos 2) by discriminate.
      reflexivity. }
    lra. }
  assert (EL : L == (v0 - (HH - XM)) / HH).
  { unfold L. rewrite !Qred_correct, F1'. reflexivity. }
  assert (ER : R == (XM + HH - v0) / HH).
  { unfold R. rewrite !Qred_correct, F2'. reflexivity. }
  assert (Hsum : L + R == 2 * t).
  { rewrite EL, ER. unfold t. field. lra. }
  assert (Hcases : (L == 2 * t - 1 /\ R == 1 /\ 0 <= t) \/
                   (L == -1 /\ R == 2 * t + 1 /\ t <= 0)).
  { destruct (Qabs_cases XM) as [[Hm Em]|[Hm Em]].
    - left. rewrite EL, ER, F0, Em. unfold t.
      split; [field; lra|]. split; [field; lra|].
      apply Qle_shift_div_l; lra.
    - right. rewrite EL, ER, F0, Em. unfold t.
      split; [field; lra|]. split; [field; lra|].
      apply Qle_shift_div_r; lra. }
  assert (Hcorner : Part000.exceeds (Fin (3 # 10)) (Fin (3 # 10))
                      (Fin L) (Fin R) = true).
  { apply exceeds_spec.
    destruct Hcases as [(E1 & E2 & H0)|(E1 & E2 & H0)];
      rewrite E1, E2.
    - rewrite (Qabs_pos t) in Ht by exact H0.
      rewrite (Qabs_neg (2 * t - 1 - 1)) by lra.
      split; [lra|].
      assert (HM : Qmax (1 # 1000000000) (Qmax (Qabs (2 * t - 1)) (Qabs 1))
                   <= 1).
      { apply Q.max_lub; [discriminate|].
        apply Q.max_lub; [|discriminate].
        apply Qabs_Qle_condition. lra. }
      lra.
    - rewrite (Qabs_neg t) in Ht by exact H0.
      rewrite (Qabs_neg (-1 - (2 * t + 1))) by lra.
      split; [lra|].
      assert (HM : Qmax (1 # 1000000000)
                     (Qmax (Qabs (-1)) (Qabs (2 * t + 1))) <= 1).
      { apply Q.max_lub; [discriminate|].
        apply Q.max_lub; [discriminate|].
        apply Qabs_Qle_condition. lra. }
      lra. }
  unfold Part000.exceeds in Hcorner. cbv zeta in Hcorner.
  rewrite Hcorner. cbn [orb].
  repeat (progress (cbn [num_add num_mul isFiniteNum]; unfold fin)).
  exists XM, (Qred ((1 # 2) * Qred (L + R))).
  split; [exact EXM|]. split.
  - rewrite !Qred_correct, Hsum. unfold t. rewrite EXM, EHH. field. lra.
  - unfold worldToScreen. cbv zeta. cbn [fst snd]. reflexivity.
Qed.

Lemma mark_step_abs_corner_witness :
  exists xm ym,
    xm == ((-1 # 10) + (3 # 10)) / 2 /\
    ym == ((-1 # 10) + (3 # 10)) / ((3 # 10) - (-1 # 10)) /\
    render (mark_step (Fin 900) (Fin 260) Fixture.f_abs
              (Fin (-6)) (Fin 6) (Fin (-2), Fin 2)
              (Fin (-1 # 10)) (Fin (3 # 10)))
    = [Filled "red"
         (Circle
            (fst (worldToScreen (Fin xm) (Fin ym) (Fin 900) (Fin 260)
                    (Fin (-6)) (Fin 6) (Fin (-2)) (Fin 2)))
            (snd (worldToScreen (Fin xm) (Fin ym) (Fin 900) (Fin 260)
                    (Fin (-6)) (Fin 6) (Fin (-2)) (Fin 2)))
            (Fin 3))].
Proof.
  apply (mark_step_abs_corner (Fin 900) (Fin 260) (Fin (-6)) (Fin 6)
           (-2) 2 (-1 # 10) (3 # 10) Fixture.f_abs).
  - reflexivity.
  - reflexivity.
  - intro t. unfold Fixture.f_abs, compiled, call_compiled. cbn.
    apply Qred_correct.
  - reflexivity.
Defined.

(** ** The two tangent overlays *)

(** X27.  With the tangent not locked, the overlay of the variant paints
    what the overlay of script.js paints (they differ in the font and
    the right limit of the label only), except for a [hoverX] that is
    NaN: there the variant issues no call, while script.js evaluates the
    function at NaN and, when the function and its derivative are finite
    there, goes on to issue the calls of the overlay, the guide first, at
    the abscissa NaN. *)
Theorem drawTangentAt_variants
    (W panelH xMin xMax : num) (f : num -> num) (df : option (num -> num))
    (yRange : num * num) (showTangent : bool)
    (tangentX : num) (hoverX : option num) :
  (hoverX <> Some NaN ->
   render (Part000.drawTangentAt W panelH f df xMin xMax yRange
             showTangent false tangentX hoverX)
   = render (ScriptJsTangent.drawTangentAt W panelH f df xMin xMax yRange
               showTangent hoverX)) /\
  Part000.drawTangentAt W panelH f df xMin xMax yRange
    showTangent false tangentX (Some NaN) = [] /\
  (forall d, df = Some d -> showTangent = true ->
     isFiniteNum (f NaN) = true -> isFiniteNum (d NaN) = true ->
     exists rest,
       ScriptJsTangent.drawTangentAt W panelH f df xMin xMax yRange
         showTangent (Some NaN)
       = [StrokeStyle "#c7d2fe"; LineWidth (Fin 1); LineDash [Fin 4; Fin 4];
          BeginPath; MoveTo NaN (Fin 0); LineTo NaN panelH; Stroke]
         ++ rest).
Proof.
  split; [|split].
  - intro Hnan.
    unfold Part000.drawTangentAt, ScriptJsTangent.drawTangentAt.
    destruct df as [d|]; [|destruct showTangent, hoverX; reflexivity].
    destruct showTangent; cbn [negb]; [|reflexivity].
    destruct hoverX as [hx|]; [|reflexivity].
    assert (Hbody : forall body : list call,
              match hx with
              | NaN => []
              | _ => body
              end = body).
    { intro body. destruct hx; try reflexivity. contradiction Hnan.
      reflexivity. }
    rewrite Hbody. cbv zeta.
    destruct (negb (isFiniteNum (f (clamp hx xMin xMax)))
              || negb (isFiniteNum (d (clamp hx xMin xMax))));
      [reflexivity|].
    unfold worldToScreen. cbv zeta. cbn [fst snd]. reflexivity.
  - unfold Part000.drawTangentAt.
    destruct df, showTangent; reflexivity.
  - intros d -> -> Hf Hd.
    unfold ScriptJsTangent.drawTangentAt. cbn [negb]. cbv zeta.
    assert (Hc : clamp NaN xMin xMax = NaN).
    { unfold clamp. destruct xMax, xMin; reflexivity. }
    rewrite Hc, Hf, Hd. cbn [negb orb].
    assert (Hx : forall py,
              fst (worldToScreen NaN py W panelH xMin xMax
                     (fst yRange) (snd yRange)) = NaN).
    { intro py. unfold worldToScreen. cbv zeta. cbn [fst].
      change (NaN - xMin)%num with NaN.
      change (NaN / (xMax - xMin))%num with NaN.
      reflexivity. }
    unfold worldToScreen in *. cbv zeta in *. cbn [fst snd] in *.
    rewrite (Hx (Fin 0)).
    eexists. cbn [app]. reflexivity.
Qed.

